(** * Closed-form pulley tooth geometry (pulley_eqns notebook)

    A shallow embedding of the numeric evaluation of the notebook's final
    solution list [final_sol] (cell "Evaluate Solution"): every named entry
    is a closed form in the parameters and in entries listed before it.

    The notebook evaluates those sympy expressions one entry at a time.
    An entry is either a finite real number or, when a division by zero,
    the square root of a negative number or an [asin] outside [-1, 1]
    occurs, a value that is not a finite real (sympy's [nan], [zoo] or a
    complex number); the latter is [None] below.  Imaginary parts are not
    tracked: an entry computed from a non-real one is [None] too.  Entries
    not depending on an undefined entry are unaffected.
    The notebook contains no [raise] and no guard of any kind. *)

From Stdlib Require Import Reals Lra Lia Factorial List.
Import ListNotations.
Open Scope R_scope.

(** ** Values of evaluated sympy expressions *)

Definition value := option R.

Definition vbind {A B : Type} (m : option A) (k : A -> option B) : option B :=
  match m with Some x => k x | None => None end.

Notation "x <- m ;; k" := (vbind m (fun x => k))
  (at level 61, m at next level, right associativity).

(** [a / b]: [zoo] or [nan] when [b] is zero. *)
Definition vdiv (a b : R) : value :=
  if Req_dec_T b 0 then None else Some (a / b).

(** [sqrt a]: imaginary when [a] is negative. *)
Definition vsqrt (a : R) : value :=
  if Rlt_dec a 0 then None else Some (sqrt a).

(** [asin a]: complex outside [-1, 1]. *)
Definition vasin (a : R) : value :=
  if Rle_dec (-1) a then if Rle_dec a 1 then Some (asin a) else None
  else None.

(** ** Parameters ([params], [param_associations]) *)

Record params := mk_params {
  RAB : R; RBC : R; RCD : R; b : R; h : R; PLD : R; t : R; PD : R; P : R
}.

(** [vals = [0.555, 1, 0.15, 0.4, 0.75, 0.254, 10, 6.36619772368, 2]] *)
Definition param_associations : params :=
  mk_params (555 / 1000) 1 (15 / 100) (4 / 10) (75 / 100) (254 / 1000) 10
    (636619772368 / 100000000000) 2.

(** [L_sub = PD / 2 - PLD - h + RAB] *)
Definition L_sub (p : params) : R := PD p / 2 - PLD p - h p + RAB p.

(** ** Stage 1: the hand-picked solution [res_1[1]], with [L] substituted

    In the printed closed forms, [L] stands for [PD/2 - PLD + RAB - h],
    [s] for [sin(b/PD)], [c] for [cos(b/PD)] and [q] for the square root
    of [disc]. *)

Definition disc (RAB RBC L s : R) : R :=
  RAB^2 - 2*RAB*RBC + RBC^2 + 4*L^2*s^4 - 4*L^2*s^2.

Definition AX_num (RAB RBC L s c q : R) : R :=
  -2*RAB^2*L*s^2 + RAB^2*L + RAB^2*q - 2*RAB*RBC*L*s^2 + RAB*RBC*L
  + RAB*RBC*q + 256*L^3*s^18 - 1152*L^3*s^16 + 2112*L^3*s^14
  + 256*L^3*s^12*c^6 - 2016*L^3*s^12 - 384*L^3*s^10*c^6 + 1056*L^3*s^10
  + 192*L^3*s^8*c^6 - 288*L^3*s^8 - 32*L^3*s^6*c^6 + 32*L^3*s^6.

Definition AY_num (RAB RBC L s c q : R) : R :=
  4*RAB^2*L*s^4 - 4*RAB^2*L*s^2 + RAB^2*L - 2*RAB^2*q*s^2 + RAB^2*q
  + 4*RAB*RBC*L*s^4 - 4*RAB*RBC*L*s^2 - 2*RAB*RBC*q*s^2 + RAB*RBC*q
  - RBC^2*L - 512*L^3*s^20 + 2560*L^3*s^18 - 5248*L^3*s^16
  - 512*L^3*s^14*c^6 + 5632*L^3*s^14 + 1024*L^3*s^12*c^6 - 3328*L^3*s^12
  - 640*L^3*s^10*c^6 + 1024*L^3*s^10 + 128*L^3*s^8*c^6 - 128*L^3*s^8.

Definition BX_num (RAB RBC L s c q : R) : R :=
  2*RAB^2*L*s^2 - RAB^2*L - RAB^2*q + 2*RAB*RBC*L*s^2 - RAB*RBC*L
  - RAB*RBC*q - 256*L^3*s^18 + 1152*L^3*s^16 - 2112*L^3*s^14
  - 256*L^3*s^12*c^6 + 2016*L^3*s^12 + 384*L^3*s^10*c^6 - 1056*L^3*s^10
  - 192*L^3*s^8*c^6 + 288*L^3*s^8 + 32*L^3*s^6*c^6 - 32*L^3*s^6.

(** [BY] is printed with the same numerator as [AY]. *)
Definition BY_num (RAB RBC L s c q : R) : R :=
  4*RAB^2*L*s^4 - 4*RAB^2*L*s^2 + RAB^2*L - 2*RAB^2*q*s^2 + RAB^2*q
  + 4*RAB*RBC*L*s^4 - 4*RAB*RBC*L*s^2 - 2*RAB*RBC*q*s^2 + RAB*RBC*q
  - RBC^2*L - 512*L^3*s^20 + 2560*L^3*s^18 - 5248*L^3*s^16
  - 512*L^3*s^14*c^6 + 5632*L^3*s^14 + 1024*L^3*s^12*c^6 - 3328*L^3*s^12
  - 640*L^3*s^10*c^6 + 1024*L^3*s^10 + 128*L^3*s^8*c^6 - 128*L^3*s^8.

Section Stage1.
Variable p : params.
Let L := L_sub p.

(** The entries of Stage 1 share [b/PD] and the square root of [disc]. *)
Definition stage1_entry (f : R -> R -> R) : value :=
  beta <- vdiv (b p) (PD p) ;;
  q <- vsqrt (disc (RAB p) (RBC p) L (sin beta)) ;;
  Some (f beta q).

Definition AX_eval : value :=
  beta <- vdiv (b p) (PD p) ;;
  q <- vsqrt (disc (RAB p) (RBC p) L (sin beta)) ;;
  vdiv (AX_num (RAB p) (RBC p) L (sin beta) (cos beta) q * sin (2*beta))
       (RAB p ^ 2 - RBC p ^ 2).

Definition AY_eval : value :=
  beta <- vdiv (b p) (PD p) ;;
  q <- vsqrt (disc (RAB p) (RBC p) L (sin beta)) ;;
  vdiv (AY_num (RAB p) (RBC p) L (sin beta) (cos beta) q)
       (RAB p ^ 2 - RBC p ^ 2).

Definition BX_eval : value :=
  beta <- vdiv (b p) (PD p) ;;
  q <- vsqrt (disc (RAB p) (RBC p) L (sin beta)) ;;
  vdiv (BX_num (RAB p) (RBC p) L (sin beta) (cos beta) q * sin (2*beta))
       (RAB p ^ 2 - RBC p ^ 2).

Definition BY_eval : value :=
  beta <- vdiv (b p) (PD p) ;;
  q <- vsqrt (disc (RAB p) (RBC p) L (sin beta)) ;;
  vdiv (BY_num (RAB p) (RBC p) L (sin beta) (cos beta) q)
       (RAB p ^ 2 - RBC p ^ 2).

Definition ABX_eval : value := Some 0.

Definition ABY_eval : value := Some L.

Definition BCX_eval : value :=
  stage1_entry (fun beta q =>
    (- PD p / 2 + PLD p - RAB p + h p + 2*L*sin beta ^ 2 - q) * sin (2*beta)).

Definition BCY_eval : value :=
  stage1_entry (fun beta q => (L - 2*L*sin beta ^ 2 + q) * cos (2*beta)).

Definition RBXY_eval : value :=
  stage1_entry (fun beta q => L - 2*L*sin beta ^ 2 + q).

End Stage1.

(** ** Stage 2: the hand-picked solution [res_2[0]] of [equations_2] *)

(** The radicand and the common numerator of the printed [CDY]. *)
Definition CD_rad (p : params) (BCX BCY : R) : R :=
  - (4*BCX^2 + 4*BCY^2 - PD p^2 + 4*PD p*PLD p - 4*PD p*RBC p - 4*PLD p^2
     + 8*PLD p*RBC p - 4*RBC p^2)
  * (4*BCX^2 + 4*BCY^2 - PD p^2 + 4*PD p*PLD p + 4*PD p*RBC p + 8*PD p*RCD p
     - 4*PLD p^2 - 8*PLD p*RBC p - 16*PLD p*RCD p - 4*RBC p^2
     - 16*RBC p*RCD p - 16*RCD p^2).

Definition CD_lin (p : params) (BCX BCY : R) : R :=
  4*BCX^2 + 4*BCY^2 + PD p^2 - 4*PD p*PLD p - 4*PD p*RCD p + 4*PLD p^2
  + 8*PLD p*RCD p - 4*RBC p^2 - 8*RBC p*RCD p.

(** [CDY = -BCX*sqrt(..)/(8*(BCX**2 + BCY**2)) + BCY*(..)/(8*(BCX**2 + BCY**2))] *)
Definition CDY_expr (p : params) (BCX BCY : R) : value :=
  q <- vsqrt (CD_rad p BCX BCY) ;;
  t1 <- vdiv (- BCX * q) (8 * (BCX^2 + BCY^2)) ;;
  t2 <- vdiv (BCY * CD_lin p BCX BCY) (8 * (BCX^2 + BCY^2)) ;;
  Some (t1 + t2).

(** [CDX = (4*BCX**2 + 4*BCY**2 - 8*BCY*(CDY) + PD**2 - ...)/(8*BCX)], with
    the [CDY] expression written out inside it. *)
Definition CDX_expr (p : params) (BCX BCY : R) : value :=
  y <- CDY_expr p BCX BCY ;;
  vdiv (4*BCX^2 + 4*BCY^2 - 8*BCY*y + PD p^2 - 4*PD p*PLD p - 4*PD p*RCD p
        + 4*PLD p^2 + 8*PLD p*RCD p - 4*RBC p^2 - 8*RBC p*RCD p)
       (8 * BCX).

(** ** Derived points [C], [CDR], [D] *)

(** [CDX-(RCD)/(RCD+RBC)*(CDX - BCX)] *)
Definition C_coord (p : params) (CD BC : R) : value :=
  k <- vdiv (RCD p) (RCD p + RBC p) ;; Some (CD - k * (CD - BC)).

(** [sqrt(CDX**2+CDY**2)] *)
Definition CDR_expr (CDX CDY : R) : value := vsqrt (CDX^2 + CDY^2).

(** [CDX*(CDR + RCD)/(CDR)] *)
Definition D_coord (p : params) (CD CDR : R) : value :=
  vdiv (CD * (CDR + RCD p)) CDR.

(** ** Stage 3: the bisector angle and the reflection *)

(** [TANG] as written in the cell building [final_sol]:
    [(-asin(BX/sqrt(BX**2+BY**2)) + (asin(BX/sqrt(BX**2+BY**2)) - 2*P/PD))/2] *)
Definition TANG_written (p : params) (BX BY : R) : value :=
  u <- vdiv BX (sqrt (BX^2 + BY^2)) ;;
  a <- vasin u ;;
  k <- vdiv (2 * P p) (PD p) ;;
  Some ((- a + (a - k)) / 2).

(** [TANG] as it is stored in [final_sol], after sympy's automatic
    simplification: [-P/PD]. *)
Definition TANG_final (p : params) : value := vdiv (- P p) (PD p).

(** [reflect_point(x, y, theta)] *)
Definition reflect_point (x y theta : R) : option (R * R) :=
  r <- vsqrt (x^2 + y^2) ;;
  u <- vdiv x (sqrt (x^2 + y^2)) ;;
  a <- vasin u ;;
  let theta_new := 2 * theta + a in
  Some (- r * sin theta_new, r * cos theta_new).

(** ** The evaluated solution list [final_sol_eval] *)

Record solution := mk_solution {
  AX : value; AY : value; BX : value; BY : value; ABX : value; ABY : value;
  BCX : value; BCY : value; RBXY : value; CDX : value; CDY : value;
  CX : value; CY : value; CDR : value; DX : value; DY : value; TANG : value;
  EX : value; EY : value; FX : value; FY : value; EFX : value; EFY : value;
  GX : value; GY : value; FGX : value; FGY : value
}.

(** [reflect_point] applied to two earlier entries and [TANG]. *)
Definition reflect_entry (x y theta : value) : option (R * R) :=
  x' <- x ;; y' <- y ;; th <- theta ;; reflect_point x' y' th.

Definition final_sol_eval (p : params) : solution :=
  let ax := AX_eval p in let ay := AY_eval p in
  let bx := BX_eval p in let by_ := BY_eval p in
  let abx := ABX_eval in let aby := ABY_eval p in
  let bcx := BCX_eval p in let bcy := BCY_eval p in
  let rbxy := RBXY_eval p in
  let cdx := x <- bcx ;; y <- bcy ;; CDX_expr p x y in
  let cdy := x <- bcx ;; y <- bcy ;; CDY_expr p x y in
  let cx := x <- cdx ;; x0 <- bcx ;; C_coord p x x0 in
  let cy := y <- cdy ;; y0 <- bcy ;; C_coord p y y0 in
  let cdr := x <- cdx ;; y <- cdy ;; CDR_expr x y in
  let dx := x <- cdx ;; r <- cdr ;; D_coord p x r in
  let dy := y <- cdy ;; r <- cdr ;; D_coord p y r in
  let tang := TANG_final p in
  let e := reflect_entry dx dy tang in
  let f := reflect_entry cx cy tang in
  let ef := reflect_entry cdx cdy tang in
  let g := reflect_entry bx by_ tang in
  let fg := reflect_entry bcx bcy tang in
  {| AX := ax; AY := ay; BX := bx; BY := by_; ABX := abx; ABY := aby;
     BCX := bcx; BCY := bcy; RBXY := rbxy; CDX := cdx; CDY := cdy;
     CX := cx; CY := cy; CDR := cdr; DX := dx; DY := dy; TANG := tang;
     EX := option_map fst e; EY := option_map snd e;
     FX := option_map fst f; FY := option_map snd f;
     EFX := option_map fst ef; EFY := option_map snd ef;
     GX := option_map fst g; GY := option_map snd g;
     FGX := option_map fst fg; FGY := option_map snd fg |}.

(** ** Parameter sets of the specification *)

(** Finite, positive scalars; [b] may be any real. *)
Definition valid_params (p : params) : Prop :=
  0 < RAB p /\ 0 < RBC p /\ 0 < RCD p /\ 0 < h p /\ 0 < PLD p /\
  0 < t p /\ 0 < P p /\ 0 < PD p.

(** [S = sin(b/PD)^2] and the discriminant of the Stage 1 description. *)
Definition S_spec (p : params) : R := sin (b p / PD p) ^ 2.

Definition Delta_spec (p : params) : R :=
  let L := L_sub p in let S := S_spec p in
  RAB p ^ 2 - 2 * RAB p * RBC p + RBC p ^ 2 + 4 * L^2 * S^2 - 4 * L^2 * S.

(** ** Evaluation of the primitives *)

Lemma vdiv_nz a c : c <> 0 -> vdiv a c = Some (a / c).
Proof. intro H; unfold vdiv; destruct (Req_dec_T c 0); [contradiction | reflexivity]. Qed.

Lemma vdiv_zero a : vdiv a 0 = None.
Proof. unfold vdiv; destruct (Req_dec_T 0 0); [reflexivity | contradiction]. Qed.

Lemma vsqrt_nn a : 0 <= a -> vsqrt a = Some (sqrt a).
Proof. intro H; unfold vsqrt; destruct (Rlt_dec a 0); [lra | reflexivity]. Qed.

Lemma vsqrt_neg a : a < 0 -> vsqrt a = None.
Proof. intro H; unfold vsqrt; destruct (Rlt_dec a 0); [reflexivity | lra]. Qed.

Lemma vasin_in a : -1 <= a <= 1 -> vasin a = Some (asin a).
Proof.
  intros [H1 H2]; unfold vasin.
  destruct (Rle_dec (-1) a); [|lra]; destruct (Rle_dec a 1); [reflexivity|lra].
Qed.

Lemma vsqrt_sum_sq x y : vsqrt (x^2 + y^2) = Some (sqrt (x^2 + y^2)).
Proof. apply vsqrt_nn; nra. Qed.

Lemma disc_spec p : disc (RAB p) (RBC p) (L_sub p) (sin (b p / PD p)) = Delta_spec p.
Proof. unfold disc, Delta_spec, S_spec; ring. Qed.

Lemma double_div x y : 2 * (x / y) = 2 * x / y.
Proof. unfold Rdiv; ring. Qed.

(** ** Stage 1 entries when [PD <> 0] *)

Section Stage1_eval.
Variable p : params.
Hypothesis HPD : PD p <> 0.

Let beta := b p / PD p.
Let q := sqrt (Delta_spec p).

Lemma stage1_entry_eval f :
  0 <= Delta_spec p -> stage1_entry p f = Some (f beta q).
Proof.
  intro HD; unfold stage1_entry; rewrite vdiv_nz by exact HPD; simpl.
  rewrite disc_spec, vsqrt_nn by exact HD; reflexivity.
Qed.

Lemma stage1_entry_neg f : Delta_spec p < 0 -> stage1_entry p f = None.
Proof.
  intro HD; unfold stage1_entry; rewrite vdiv_nz by exact HPD; simpl.
  rewrite disc_spec, vsqrt_neg by exact HD; reflexivity.
Qed.

Lemma stage1_div_eval (num : R -> R -> R) (den : R) :
  0 <= Delta_spec p -> den <> 0 ->
  (beta' <- vdiv (b p) (PD p) ;;
   q' <- vsqrt (disc (RAB p) (RBC p) (L_sub p) (sin beta')) ;;
   vdiv (num beta' q') den) = Some (num beta q / den).
Proof.
  intros HD Hden; rewrite vdiv_nz by exact HPD; simpl.
  rewrite disc_spec, vsqrt_nn by exact HD; simpl; now rewrite vdiv_nz.
Qed.

Lemma stage1_div_zero (num : R -> R -> R) :
  (beta' <- vdiv (b p) (PD p) ;;
   q' <- vsqrt (disc (RAB p) (RBC p) (L_sub p) (sin beta')) ;;
   vdiv (num beta' q') 0) = None.
Proof.
  rewrite vdiv_nz by exact HPD; simpl.
  destruct (vsqrt _); simpl; [apply vdiv_zero | reflexivity].
Qed.

Lemma stage1_div_neg (num : R -> R -> R) (den : R) :
  Delta_spec p < 0 ->
  (beta' <- vdiv (b p) (PD p) ;;
   q' <- vsqrt (disc (RAB p) (RBC p) (L_sub p) (sin beta')) ;;
   vdiv (num beta' q') den) = None.
Proof.
  intro HD; rewrite vdiv_nz by exact HPD; simpl.
  rewrite disc_spec, vsqrt_neg by exact HD; reflexivity.
Qed.

End Stage1_eval.

(** ** The printed Stage 1 numerators

    The degree-20 terms in [L^3] cancel once [sin^2 + cos^2 = 1]. *)

Ltac c6_to_s c s H :=
  replace (c^6) with ((1 - s^2)^3)
    by (replace (c^6) with ((c^2)^3) by ring; rewrite <- H; ring).

Lemma AX_num_simpl RAB RBC L s c q :
  s^2 + c^2 = 1 -> AX_num RAB RBC L s c q = RAB*(RAB+RBC)*(L - 2*L*s^2 + q).
Proof. intro H; unfold AX_num; c6_to_s c s H; ring. Qed.

Lemma BX_num_opp RAB RBC L s c q :
  BX_num RAB RBC L s c q = - AX_num RAB RBC L s c q.
Proof. unfold AX_num, BX_num; ring. Qed.

Lemma BY_num_AY RAB RBC L s c q :
  BY_num RAB RBC L s c q = AY_num RAB RBC L s c q.
Proof. reflexivity. Qed.

Lemma AY_num_simpl RAB RBC L s c q :
  s^2 + c^2 = 1 ->
  AY_num RAB RBC L s c q =
  (RAB+RBC)*(RAB*(1 - 2*s^2)*(L - 2*L*s^2 + q) - RBC*L).
Proof. intro H; unfold AY_num; c6_to_s c s H; ring. Qed.

(** ** Stage 1 closed forms after simplification *)

Definition RBXY_r (p : params) : R :=
  L_sub p - 2 * L_sub p * S_spec p + sqrt (Delta_spec p).

Definition two_beta (p : params) : R := 2 * (b p / PD p).

Lemma sin_cos_sq x : sin x ^ 2 + cos x ^ 2 = 1.
Proof. rewrite <- (sin2_cos2 x); unfold Rsqr; ring. Qed.

Lemma cos_two_beta p : cos (two_beta p) = 1 - 2 * S_spec p.
Proof. unfold two_beta, S_spec; rewrite cos_2a_sin; ring. Qed.

Section Stage1_closed.
Variable p : params.
Hypothesis HPD : PD p <> 0.
Hypothesis HD : 0 <= Delta_spec p.

Lemma RBXY_eval_closed : RBXY_eval p = Some (RBXY_r p).
Proof.
  unfold RBXY_eval; pose proof (stage1_entry_eval p HPD
    (fun beta q => L_sub p - 2 * L_sub p * sin beta ^ 2 + q) HD) as E.
  cbv zeta in E; rewrite E; reflexivity.
Qed.

Lemma BCX_eval_closed : BCX_eval p = Some (- RBXY_r p * sin (two_beta p)).
Proof.
  unfold BCX_eval; rewrite stage1_entry_eval by assumption; cbv beta zeta.
  unfold RBXY_r, S_spec, two_beta, L_sub; f_equal; unfold Rdiv; ring.
Qed.

Lemma BCY_eval_closed : BCY_eval p = Some (RBXY_r p * cos (two_beta p)).
Proof.
  unfold BCY_eval; rewrite stage1_entry_eval by assumption; cbv beta zeta.
  unfold RBXY_r, S_spec, two_beta; reflexivity.
Qed.

Hypothesis Hden : RAB p ^ 2 - RBC p ^ 2 <> 0.

Let Hsum : RAB p + RBC p <> 0.
Proof. intro E; apply Hden; replace (RBC p) with (- RAB p) by lra; ring. Qed.

Let Hdif : RAB p - RBC p <> 0.
Proof. intro E; apply Hden; replace (RBC p) with (RAB p) by lra; ring. Qed.

Lemma AX_eval_closed :
  AX_eval p = Some (RAB p * RBXY_r p * sin (two_beta p) / (RAB p - RBC p)).
Proof.
  unfold AX_eval.
  rewrite (stage1_div_eval p HPD (fun beta q =>
    AX_num (RAB p) (RBC p) (L_sub p) (sin beta) (cos beta) q * sin (2 * beta)))
    by assumption.
  cbv beta zeta; rewrite AX_num_simpl by apply sin_cos_sq.
  unfold RBXY_r, S_spec, two_beta; f_equal; field; auto.
Qed.

Lemma BX_eval_closed :
  BX_eval p = Some (- (RAB p * RBXY_r p * sin (two_beta p) / (RAB p - RBC p))).
Proof.
  unfold BX_eval.
  rewrite (stage1_div_eval p HPD (fun beta q =>
    BX_num (RAB p) (RBC p) (L_sub p) (sin beta) (cos beta) q * sin (2 * beta)))
    by assumption.
  cbv beta zeta; rewrite BX_num_opp, AX_num_simpl by apply sin_cos_sq.
  unfold RBXY_r, S_spec, two_beta; f_equal; field; auto.
Qed.

Definition BY_r : R :=
  (RAB p * cos (two_beta p) * RBXY_r p - RBC p * L_sub p) / (RAB p - RBC p).

Lemma AY_eval_closed : AY_eval p = Some BY_r.
Proof.
  unfold AY_eval.
  rewrite (stage1_div_eval p HPD (fun beta q =>
    AY_num (RAB p) (RBC p) (L_sub p) (sin beta) (cos beta) q))
    by assumption.
  cbv beta zeta; rewrite AY_num_simpl by apply sin_cos_sq.
  unfold BY_r; rewrite cos_two_beta.
  unfold RBXY_r, S_spec; f_equal; field; auto.
Qed.

Lemma BY_eval_closed : BY_eval p = Some BY_r.
Proof. rewrite <- AY_eval_closed; reflexivity. Qed.

End Stage1_closed.

(** ** Entries of [final_sol_eval] *)

Lemma final_stage1 p :
  AX (final_sol_eval p) = AX_eval p /\ AY (final_sol_eval p) = AY_eval p /\
  BX (final_sol_eval p) = BX_eval p /\ BY (final_sol_eval p) = BY_eval p /\
  ABX (final_sol_eval p) = ABX_eval /\ ABY (final_sol_eval p) = ABY_eval p /\
  BCX (final_sol_eval p) = BCX_eval p /\ BCY (final_sol_eval p) = BCY_eval p /\
  RBXY (final_sol_eval p) = RBXY_eval p.
Proof. repeat split. Qed.

Lemma valid_PD p : valid_params p -> PD p <> 0.
Proof. intros (_&_&_&_&_&_&_&H); lra. Qed.

Lemma valid_den p : valid_params p -> RAB p <> RBC p -> RAB p ^ 2 - RBC p ^ 2 <> 0.
Proof.
  intros (H1&H2&_) Hne E; apply Hne.
  assert (E' : (RAB p - RBC p) * (RAB p + RBC p) = 0) by (rewrite <- E; ring).
  apply Rmult_integral in E'; lra.
Qed.

Lemma Delta_b0 p : b p = 0 -> Delta_spec p = (RAB p - RBC p) ^ 2.
Proof.
  intro H; unfold Delta_spec, S_spec; rewrite H; unfold Rdiv.
  rewrite Rmult_0_l, sin_0; ring.
Qed.

(** A small parameter set with [b = 0], where [S = 0]. *)
Definition p_flat : params := mk_params 1 2 1 0 1 1 1 2 1.

Lemma p_flat_valid : valid_params p_flat.
Proof. unfold valid_params, p_flat; simpl; lra. Qed.

Lemma p_flat_Delta : 0 <= Delta_spec p_flat.
Proof. rewrite Delta_b0 by reflexivity; simpl; lra. Qed.

(** C1 *)

(** Claim C1: for a valid parameter set with [RAB <> RBC] and [Delta >= 0],
    Stage 1 yields [RBXY = L - 2LS + sqrt Delta], [ABX = 0], [ABY = L],
    [BCX = (-L + 2LS - sqrt Delta) sin(2b/PD)] and
    [BCY = (L - 2LS + sqrt Delta) cos(2b/PD)]. *)
Theorem stage1_closed_forms (p : params) :
  valid_params p -> RAB p <> RBC p -> 0 <= Delta_spec p ->
  let L := L_sub p in let S := S_spec p in let D := Delta_spec p in
  let sol := final_sol_eval p in
  RBXY sol = Some (L - 2 * L * S + sqrt D) /\ ABX sol = Some 0 /\
  ABY sol = Some L /\
  BCX sol = Some ((- L + 2 * L * S - sqrt D) * sin (2 * b p / PD p)) /\
  BCY sol = Some ((L - 2 * L * S + sqrt D) * cos (2 * b p / PD p)).
Proof.
  intros Hv _ HD; pose proof (valid_PD p Hv) as HPD; cbv zeta.
  destruct (final_stage1 p) as (_&_&_&_&->&->&->&->&->).
  rewrite RBXY_eval_closed, BCX_eval_closed, BCY_eval_closed by assumption.
  unfold RBXY_r, two_beta; rewrite double_div.
  repeat split; f_equal; ring.
Qed.

Lemma stage1_closed_forms_witness :
  valid_params p_flat /\ RAB p_flat <> RBC p_flat /\ 0 <= Delta_spec p_flat /\
  RBXY (final_sol_eval p_flat) =
    Some (L_sub p_flat - 2 * L_sub p_flat * S_spec p_flat
          + sqrt (Delta_spec p_flat)).
Proof.
  assert (Hne : RAB p_flat <> RBC p_flat) by (simpl; lra).
  split; [exact p_flat_valid|]; split; [exact Hne|];
    split; [exact p_flat_Delta|].
  exact (proj1 (stage1_closed_forms p_flat p_flat_valid Hne p_flat_Delta)).
Defined.

(** C4 *)

(** Claim C4: for a valid parameter set with [RAB <> RBC] and [Delta >= 0],
    the entries [AX], [AY], [BX], [BY] are finite reals with [AX = -BX]
    and [AY = BY]. *)
Theorem stage1_mirror (p : params) :
  valid_params p -> RAB p <> RBC p -> 0 <= Delta_spec p ->
  exists ax ay bx by_,
    AX (final_sol_eval p) = Some ax /\ AY (final_sol_eval p) = Some ay /\
    BX (final_sol_eval p) = Some bx /\ BY (final_sol_eval p) = Some by_ /\
    ax = - bx /\ ay = by_.
Proof.
  intros Hv Hne HD; pose proof (valid_PD p Hv) as HPD.
  pose proof (valid_den p Hv Hne) as Hden.
  destruct (final_stage1 p) as (->&->&->&->&_).
  rewrite AX_eval_closed, AY_eval_closed, BX_eval_closed, BY_eval_closed
    by assumption.
  do 4 eexists; repeat split; ring.
Qed.

Lemma stage1_mirror_witness :
  valid_params p_flat /\ RAB p_flat <> RBC p_flat /\ 0 <= Delta_spec p_flat /\
  exists ax ay bx by_,
    AX (final_sol_eval p_flat) = Some ax /\ AY (final_sol_eval p_flat) = Some ay /\
    BX (final_sol_eval p_flat) = Some bx /\ BY (final_sol_eval p_flat) = Some by_ /\
    ax = - bx /\ ay = by_.
Proof.
  assert (Hne : RAB p_flat <> RBC p_flat) by (simpl; lra).
  split; [exact p_flat_valid|]; split; [exact Hne|];
    split; [exact p_flat_Delta|].
  exact (stage1_mirror p_flat p_flat_valid Hne p_flat_Delta).
Defined.

(** ** The reflection transform *)

Definition reflect_twice (x y theta : R) : option (R * R) :=
  e <- reflect_point x y theta ;; reflect_point (fst e) (snd e) theta.

Lemma sqrt_sum_pos x y : 0 < x^2 + y^2 -> 0 < sqrt (x^2 + y^2).
Proof. apply sqrt_lt_R0. Qed.

Lemma unit_ratio x y : 0 < x^2 + y^2 -> -1 <= x / sqrt (x^2 + y^2) <= 1.
Proof.
  intro H; pose proof (sqrt_sum_pos x y H) as Hr.
  pose proof (pow2_sqrt (x^2 + y^2) ltac:(lra)) as Hrr.
  set (r := sqrt (x^2 + y^2)) in *.
  assert (Hb : - r <= x <= r) by nra.
  assert (Hi : r * / r = 1) by (apply Rinv_r; lra).
  pose proof (Rinv_0_lt_compat r Hr); unfold Rdiv; split; nra.
Qed.

Lemma reflect_point_eval x y theta :
  0 < x^2 + y^2 ->
  reflect_point x y theta =
  Some (- sqrt (x^2 + y^2) * sin (2 * theta + asin (x / sqrt (x^2 + y^2))),
        sqrt (x^2 + y^2) * cos (2 * theta + asin (x / sqrt (x^2 + y^2)))).
Proof.
  intro H; unfold reflect_point; rewrite vsqrt_sum_sq; cbn [vbind].
  pose proof (sqrt_sum_pos x y H).
  rewrite vdiv_nz by lra; cbn [vbind].
  rewrite vasin_in by (apply unit_ratio; exact H); reflexivity.
Qed.

Lemma r_cos_asin x y :
  0 < x^2 + y^2 ->
  sqrt (x^2 + y^2) * cos (asin (x / sqrt (x^2 + y^2))) = Rabs y.
Proof.
  intro H; pose proof (unit_ratio x y H) as Hu.
  pose proof (sqrt_sum_pos x y H) as Hr.
  pose proof (pow2_sqrt (x^2 + y^2) ltac:(lra)) as Hrr.
  rewrite cos_asin by exact Hu.
  set (r := sqrt (x^2 + y^2)) in *.
  assert (H1 : 0 <= 1 - (x / r)²) by (unfold Rsqr; nra).
  apply Rsqr_inj.
  - apply Rmult_le_pos; [lra | apply sqrt_pos].
  - apply Rabs_pos.
  - rewrite Rsqr_mult, Rsqr_sqrt by exact H1; rewrite <- Rsqr_abs.
    unfold Rsqr; field_simplify; [|lra].
    replace (r^2) with (x^2 + y^2) by exact (eq_sym Hrr); field.
Qed.

(** The reflection in closed form: [asin] recovers the angle of [(x, y)]
    from the y-axis only up to the sign of [y]. *)
Lemma reflect_point_closed x y theta :
  0 < x^2 + y^2 ->
  reflect_point x y theta =
  Some (- (sin (2 * theta) * Rabs y + cos (2 * theta) * x),
        cos (2 * theta) * Rabs y - sin (2 * theta) * x).
Proof.
  intro H; rewrite reflect_point_eval by exact H.
  pose proof (r_cos_asin x y H) as Hc.
  pose proof (sin_asin _ (unit_ratio x y H)) as Hs.
  pose proof (sqrt_sum_pos x y H) as Hr.
  set (r := sqrt (x^2 + y^2)) in *.
  set (a := asin (x / r)) in *.
  rewrite sin_plus, cos_plus, <- Hc, Hs.
  f_equal; f_equal; field; lra.
Qed.

Lemma reflect_point_norm x y theta :
  0 < x^2 + y^2 ->
  exists x' y', reflect_point x y theta = Some (x', y') /\
                x'^2 + y'^2 = x^2 + y^2.
Proof.
  intro H; rewrite reflect_point_eval by exact H; do 2 eexists; split;
    [reflexivity|].
  set (phi := 2 * theta + _).
  replace ((- sqrt (x^2 + y^2) * sin phi)^2 + (sqrt (x^2 + y^2) * cos phi)^2)
    with (sqrt (x^2 + y^2) ^ 2 * (sin phi ^ 2 + cos phi ^ 2)) by ring.
  rewrite sin_cos_sq, pow2_sqrt by lra; ring.
Qed.

Lemma reflect_point_zero x y :
  0 < x^2 + y^2 -> reflect_point x y 0 = Some (- x, Rabs y).
Proof.
  intro H; rewrite reflect_point_closed by exact H.
  rewrite Rmult_0_r, sin_0, cos_0; f_equal; f_equal; ring.
Qed.

(** C6 *)

(** Claim C6 (counterexample): applying the reflection twice with the same
    angle does not return every point: [(0, -1)] with angle [0] comes back
    as [(0, 1)]. *)
Lemma reflect_involution_fails :
  reflect_twice 0 (-1) 0 = Some (0, 1) /\ reflect_twice 0 (-1) 0 <> Some (0, -1).
Proof.
  assert (E : reflect_twice 0 (-1) 0 = Some (0, 1)).
  { unfold reflect_twice; rewrite reflect_point_zero by lra; cbn [vbind fst snd].
    replace (Rabs (-1)) with 1 by (rewrite Rabs_left; lra).
    rewrite Ropp_0, reflect_point_zero by lra.
    rewrite Ropp_0, Rabs_R1; reflexivity. }
  split; [exact E|]; rewrite E; intro F; injection F; lra.
Qed.

(** Claim C6 (as amended): for a point other than the origin, reflecting
    twice with the same angle returns the point exactly when either
    [y >= 0] and the first image also has a non-negative [y]
    ([cos(2 theta + asin(x/r)) >= 0]), or [y < 0] and [cos(2 theta) = -1]. *)
Theorem reflect_involution_upper x y theta :
  0 < x^2 + y^2 ->
  (reflect_twice x y theta = Some (x, y) <->
   (0 <= y /\ 0 <= cos (2 * theta + asin (x / sqrt (x^2 + y^2)))) \/
   (y < 0 /\ cos (2 * theta) = -1)).
Proof.
  intro H.
  pose proof (eq_trans (eq_sym (reflect_point_eval x y theta H))
                       (reflect_point_closed x y theta H)) as Ey0.
  assert (Ey : sqrt (x^2 + y^2) * cos (2 * theta + asin (x / sqrt (x^2 + y^2)))
               = cos (2 * theta) * Rabs y - sin (2 * theta) * x)
    by (injection Ey0; intros E _; exact E).
  clear Ey0.
  pose proof (sqrt_sum_pos x y H) as Hr.
  unfold reflect_twice; rewrite (reflect_point_closed x y theta H); cbn [vbind fst snd].
  pose proof (sin_cos_sq (2 * theta)) as Hsc.
  set (phi := 2 * theta + asin (x / sqrt (x^2 + y^2))) in *.
  set (r := sqrt (x^2 + y^2)) in *.
  set (s := sin (2 * theta)) in *; set (c := cos (2 * theta)) in *.
  assert (Hn : 0 < (- (s * Rabs y + c * x)) ^ 2 + (c * Rabs y - s * x) ^ 2).
  { replace ((- (s * Rabs y + c * x)) ^ 2 + (c * Rabs y - s * x) ^ 2)
      with ((s ^ 2 + c ^ 2) * (Rabs y ^ 2 + x ^ 2)) by ring.
    rewrite Hsc, pow2_abs; lra. }
  rewrite (reflect_point_closed _ _ theta Hn); fold s c.
  assert (Hcos : 0 <= cos phi <-> 0 <= c * Rabs y - s * x).
  { rewrite <- Ey; split; intro; [apply Rmult_le_pos; lra|].
    destruct (Rle_or_lt 0 (cos phi)) as [|N]; [assumption|].
    exfalso; assert (r * cos phi < 0) by nra; lra. }
  destruct (Rle_or_lt 0 y) as [Hy|Hy].
  - rewrite (Rabs_pos_eq y Hy) in *.
    destruct (Rle_or_lt 0 (c * y - s * x)) as [Hy'|Hy'].
    + rewrite (Rabs_pos_eq _ Hy'); split; [intros _; left; split; [lra | apply Hcos; lra]|].
      intros _; f_equal; f_equal.
      * transitivity ((s ^ 2 + c ^ 2) * x); [ring | rewrite Hsc; ring].
      * transitivity ((s ^ 2 + c ^ 2) * y); [ring | rewrite Hsc; ring].
    + rewrite (Rabs_left _ Hy'); split.
      * intro E; injection E as E1 E2; exfalso.
        assert (Ew : (s ^ 2 + c ^ 2) * (c * y - s * x) = 0) by nra.
        rewrite Hsc in Ew; lra.
      * intros [[_ Hc] | [Hn' _]]; [apply Hcos in Hc; lra | lra].
  - rewrite (Rabs_left y Hy) in *.
    destruct (Rle_or_lt 0 (c * - y - s * x)) as [Hy'|Hy'].
    + rewrite (Rabs_pos_eq _ Hy'); split.
      * intro E; injection E as E1 E2; exfalso.
        assert (Ew : (s ^ 2 + c ^ 2) * y = - y) by nra.
        rewrite Hsc in Ew; lra.
      * intros [[Hn' _] | [_ Hc]]; [lra|].
        assert (s = 0) by (rewrite Hc in Hsc; nra).
        subst s; rewrite Hc in Hy'; nra.
    + rewrite (Rabs_left _ Hy'); split.
      * intro E; injection E as E1 E2; right; split; [exact Hy|].
        assert (Hx : x * (s ^ 2 + c ^ 2) = x) by (rewrite Hsc; ring).
        assert (Hy2 : y * (s ^ 2 + c ^ 2) = y) by (rewrite Hsc; ring).
        assert (Es1 : s * (s * x + c * y) = 0) by lra.
        assert (Es2 : s * (c * x - s * y) = 0) by lra.
        assert (Hs0 : s = 0).
        { destruct (Req_dec s 0) as [|Ns]; [assumption|exfalso].
          apply Rmult_integral in Es1; apply Rmult_integral in Es2.
          destruct Es1 as [|Es1]; [contradiction|].
          destruct Es2 as [|Es2]; [contradiction|].
          assert ((s ^ 2 + c ^ 2) * x = 0) by nra.
          assert ((s ^ 2 + c ^ 2) * y = 0) by nra.
          rewrite Hsc in *; lra. }
        subst s; assert (Hc2 : c * c = 1) by nra.
        destruct (Rle_or_lt 0 c); [nra | nra].
      * intros [[Hn' _] | [_ Hc]]; [lra|].
        assert (Hs0 : s = 0) by (rewrite Hc in Hsc; nra).
        rewrite Hc, Hs0; f_equal; f_equal; ring.
Qed.

Lemma reflect_involution_upper_witness :
  0 < 0^2 + (-1)^2 /\ reflect_twice 0 (-1) (PI / 2) = Some (0, -1).
Proof.
  assert (H1 : 0 < 0^2 + (-1)^2) by lra.
  split; [exact H1|].
  apply (proj2 (reflect_involution_upper 0 (-1) (PI / 2) H1)).
  right; split; [lra|].
  replace (2 * (PI / 2)) with PI by field; apply cos_PI.
Defined.

(** C5 *)

(** Claim C5: for every point [B] with [BX^2 + BY^2 > 0], the bisector
    angle as written, [(-asin(u) + (asin(u) - 2P/PD))/2] with
    [u = BX/sqrt(BX^2+BY^2)], equals the entry [TANG = -P/PD] of the
    solution: the [asin] terms cancel. *)
Theorem TANG_written_eq_final (p : params) (BX_ BY_ : R) :
  0 < BX_^2 + BY_^2 ->
  TANG_written p BX_ BY_ = TANG (final_sol_eval p) /\
  (PD p <> 0 -> TANG (final_sol_eval p) = Some (- P p / PD p)).
Proof.
  intro H; split; [|intro E; apply vdiv_nz; exact E].
  pose proof (sqrt_sum_pos BX_ BY_ H).
  unfold TANG_written; rewrite vdiv_nz by lra; cbn [vbind].
  rewrite vasin_in by (apply unit_ratio; exact H); cbn [vbind].
  change (TANG (final_sol_eval p)) with (TANG_final p); unfold TANG_final, vdiv.
  destruct (Req_dec_T (PD p) 0) as [E|E]; cbn [vbind]; [reflexivity|].
  f_equal; field; exact E.
Qed.

Lemma TANG_written_eq_final_witness :
  0 < 0^2 + 1^2 /\
  TANG_written param_associations 0 1 = TANG (final_sol_eval param_associations) /\
  (PD param_associations <> 0 ->
   TANG (final_sol_eval param_associations) =
   Some (- P param_associations / PD param_associations)).
Proof.
  assert (H : 0 < 0^2 + 1^2) by lra.
  split; [exact H | exact (TANG_written_eq_final param_associations 0 1 H)].
Defined.

(** ** Norms of reflected entries *)

Lemma reflect_point_some_norm x y theta e :
  reflect_point x y theta = Some e -> fst e ^ 2 + snd e ^ 2 = x^2 + y^2.
Proof.
  intro E; destruct (Rlt_dec 0 (x^2 + y^2)) as [H|H].
  - destruct (reflect_point_norm x y theta H) as (x' & y' & E' & N).
    rewrite E' in E; injection E as <-; exact N.
  - assert (Z : x^2 + y^2 = 0) by nra.
    unfold reflect_point in E; rewrite vsqrt_sum_sq in E; cbn [vbind] in E.
    rewrite Z, sqrt_0, vdiv_zero in E; discriminate.
Qed.

(** When the reflected pair [(a, b)] is defined, so is its source [(c, d)],
    with the same squared norm. *)
Definition same_norm (a b c d : value) : Prop :=
  forall x' y', a = Some x' -> b = Some y' ->
  exists x y, c = Some x /\ d = Some y /\ x'^2 + y'^2 = x^2 + y^2.

Lemma reflect_entry_same_norm x y th :
  same_norm (option_map fst (reflect_entry x y th))
            (option_map snd (reflect_entry x y th)) x y.
Proof.
  intros x' y'; unfold reflect_entry.
  destruct x as [x|], y as [y|], th as [th|]; cbn; try discriminate.
  destruct (reflect_point x y th) as [e|] eqn:E; cbn; try discriminate.
  intros Hx Hy; injection Hx as <-; injection Hy as <-.
  exists x, y; repeat split; apply (reflect_point_some_norm x y th e E).
Qed.

Lemma stage1_entry_some p f v :
  stage1_entry p f = Some v -> PD p <> 0 /\ 0 <= Delta_spec p.
Proof.
  unfold stage1_entry, vdiv; destruct (Req_dec_T (PD p) 0) as [E|E];
    cbn [vbind]; [discriminate|].
  rewrite disc_spec; unfold vsqrt; destruct (Rlt_dec (Delta_spec p) 0);
    cbn [vbind]; [discriminate|].
  intros _; split; [exact E | lra].
Qed.

(** A parameter set with all scalars positive whose flank radius [RBXY] is
    negative: [b/PD = pi], [L = -2], [Delta = 1]. *)
Definition p_neg : params := mk_params 1 2 1 (2 * PI) 1 3 1 2 1.

Lemma p_neg_valid : valid_params p_neg.
Proof. unfold valid_params, p_neg; simpl; pose proof PI_RGT_0; lra. Qed.

Lemma p_neg_beta : b p_neg / PD p_neg = PI.
Proof. simpl; field. Qed.

Lemma p_neg_Delta : Delta_spec p_neg = 1.
Proof.
  unfold Delta_spec, S_spec; rewrite p_neg_beta, sin_PI; unfold L_sub; simpl; ring.
Qed.

Lemma p_neg_RBXY : RBXY_r p_neg = -1.
Proof.
  unfold RBXY_r, S_spec; rewrite p_neg_Delta, p_neg_beta, sin_PI, sqrt_1.
  unfold L_sub; simpl; field.
Qed.

Lemma p_neg_BC :
  BCX_eval p_neg = Some 0 /\ BCY_eval p_neg = Some (-1).
Proof.
  assert (HPD : PD p_neg <> 0) by (simpl; lra).
  assert (HD : 0 <= Delta_spec p_neg) by (rewrite p_neg_Delta; lra).
  rewrite BCX_eval_closed, BCY_eval_closed by assumption.
  unfold two_beta; rewrite p_neg_beta, p_neg_RBXY, sin_2PI, cos_2PI.
  split; f_equal; ring.
Qed.

(** C10 *)

(** Claim C10 (counterexample): [|FG| = RBXY] fails when the flank radius
    is negative: for [p_neg], [RBXY = -1] while [FG] has norm [1]. *)
Lemma FG_norm_not_RBXY :
  exists fx fy,
    FGX (final_sol_eval p_neg) = Some fx /\ FGY (final_sol_eval p_neg) = Some fy /\
    RBXY (final_sol_eval p_neg) = Some (-1) /\ sqrt (fx^2 + fy^2) = 1.
Proof.
  assert (HPD : PD p_neg <> 0) by (simpl; lra).
  assert (HD : 0 <= Delta_spec p_neg) by (rewrite p_neg_Delta; lra).
  change (FGX (final_sol_eval p_neg)) with
    (option_map fst (reflect_entry (BCX_eval p_neg) (BCY_eval p_neg) (TANG_final p_neg))).
  change (FGY (final_sol_eval p_neg)) with
    (option_map snd (reflect_entry (BCX_eval p_neg) (BCY_eval p_neg) (TANG_final p_neg))).
  change (RBXY (final_sol_eval p_neg)) with (RBXY_eval p_neg).
  destruct p_neg_BC as [-> ->].
  unfold TANG_final; rewrite vdiv_nz by exact HPD; unfold reflect_entry; cbn [vbind].
  destruct (reflect_point_norm 0 (-1) (- P p_neg / PD p_neg) ltac:(lra))
    as (x' & y' & -> & N).
  exists x', y'; cbn [option_map fst snd]; repeat split.
  - rewrite RBXY_eval_closed, p_neg_RBXY by assumption; reflexivity.
  - rewrite N; replace (0^2 + (-1)^2) with 1 by ring; apply sqrt_1.
Qed.

Lemma sqrt_sq_abs x : sqrt (x ^ 2) = Rabs x.
Proof. rewrite <- pow2_abs; apply sqrt_pow2, Rabs_pos. Qed.

(** Claim C10 (as amended): [reflect_point] preserves the distance from the
    origin; each defined reflected entry [E], [F], [EF], [G], [FG] has the
    norm of its source [D], [C], [CD], [B], [BC]; [|EF| = CDR] and
    [|FG| = |RBXY|]. *)
Theorem reflect_preserves_norm :
  (forall x y theta, 0 < x^2 + y^2 ->
     exists x' y', reflect_point x y theta = Some (x', y') /\
                   x'^2 + y'^2 = x^2 + y^2) /\
  (forall p, let sol := final_sol_eval p in
     same_norm (EX sol) (EY sol) (DX sol) (DY sol) /\
     same_norm (FX sol) (FY sol) (CX sol) (CY sol) /\
     same_norm (EFX sol) (EFY sol) (CDX sol) (CDY sol) /\
     same_norm (GX sol) (GY sol) (BX sol) (BY sol) /\
     same_norm (FGX sol) (FGY sol) (BCX sol) (BCY sol) /\
     (forall ex ey r, EFX sol = Some ex -> EFY sol = Some ey ->
        CDR sol = Some r -> sqrt (ex^2 + ey^2) = r) /\
     (forall fx fy r, FGX sol = Some fx -> FGY sol = Some fy ->
        RBXY sol = Some r -> sqrt (fx^2 + fy^2) = Rabs r)).
Proof.
  split; [exact reflect_point_norm|].
  intro p; cbv zeta.
  split; [apply reflect_entry_same_norm|].
  split; [apply reflect_entry_same_norm|].
  split; [apply reflect_entry_same_norm|].
  split; [apply reflect_entry_same_norm|].
  split; [apply reflect_entry_same_norm|].
  split.
  - intros ex ey r Hx Hy Hr.
    destruct (reflect_entry_same_norm (CDX (final_sol_eval p))
                (CDY (final_sol_eval p)) (TANG (final_sol_eval p)) ex ey Hx Hy)
      as (x & y & Ex & Ey & N).
    change (CDR (final_sol_eval p)) with
      (x0 <- CDX (final_sol_eval p) ;; y0 <- CDY (final_sol_eval p) ;;
       CDR_expr x0 y0) in Hr.
    rewrite Ex, Ey in Hr; cbn [vbind] in Hr; unfold CDR_expr in Hr.
    rewrite vsqrt_sum_sq in Hr; injection Hr as <-; rewrite N; reflexivity.
  - intros fx fy r Hx Hy Hr.
    destruct (reflect_entry_same_norm (BCX (final_sol_eval p))
                (BCY (final_sol_eval p)) (TANG (final_sol_eval p)) fx fy Hx Hy)
      as (x & y & Ex & Ey & N).
    change (BCX (final_sol_eval p)) with (BCX_eval p) in Ex.
    change (BCY (final_sol_eval p)) with (BCY_eval p) in Ey.
    change (RBXY (final_sol_eval p)) with (RBXY_eval p) in Hr.
    destruct (stage1_entry_some p _ x Ex) as [HPD HD].
    rewrite BCX_eval_closed in Ex by assumption.
    rewrite BCY_eval_closed in Ey by assumption.
    rewrite RBXY_eval_closed in Hr by assumption.
    injection Ex as <-; injection Ey as <-; injection Hr as <-.
    rewrite N, <- sqrt_sq_abs; f_equal.
    replace ((- RBXY_r p * sin (two_beta p)) ^ 2 + (RBXY_r p * cos (two_beta p)) ^ 2)
      with (RBXY_r p ^ 2 * (sin (two_beta p) ^ 2 + cos (two_beta p) ^ 2)) by ring.
    rewrite sin_cos_sq; ring.
Qed.

(** ** The derived points [C] and [D] *)

Definition dist (x1 y1 x2 y2 : R) : R := sqrt ((x1 - x2)^2 + (y1 - y2)^2).

Lemma div_nonneg a c : 0 <= a -> 0 < c -> 0 <= a / c.
Proof.
  intros Ha Hc; unfold Rdiv; apply Rmult_le_pos; [exact Ha|].
  left; apply Rinv_0_lt_compat; exact Hc.
Qed.

Lemma sqrt_scale l u v :
  0 <= l -> sqrt ((l * u)^2 + (l * v)^2) = l * sqrt (u^2 + v^2).
Proof.
  intro Hl; replace ((l * u)^2 + (l * v)^2) with (l^2 * (u^2 + v^2)) by ring.
  rewrite sqrt_mult_alt by (apply pow2_ge_0); rewrite sqrt_pow2 by exact Hl;
    reflexivity.
Qed.

(** C8 *)

(** Claim C8: when [|CD - BC| = RBC + RCD] and [CDR = |CD| > 0], the point
    [C] lies on the segment from [BC] to [CD] with [|C - BC| = RBC] and
    [|C - CD| = RCD], and [D] lies on the ray from the origin through [CD],
    beyond [CD] by [RCD], with [|D| = CDR + RCD]. *)
Theorem derived_points_C_D (p : params) (CDX_ CDY_ BCX_ BCY_ : R) :
  valid_params p ->
  dist CDX_ CDY_ BCX_ BCY_ = RBC p + RCD p ->
  0 < sqrt (CDX_^2 + CDY_^2) ->
  exists cx cy cdr dx dy,
    C_coord p CDX_ BCX_ = Some cx /\ C_coord p CDY_ BCY_ = Some cy /\
    CDR_expr CDX_ CDY_ = Some cdr /\ cdr = sqrt (CDX_^2 + CDY_^2) /\
    D_coord p CDX_ cdr = Some dx /\ D_coord p CDY_ cdr = Some dy /\
    (exists lam, 0 <= lam <= 1 /\
       cx = BCX_ + lam * (CDX_ - BCX_) /\ cy = BCY_ + lam * (CDY_ - BCY_)) /\
    dist cx cy BCX_ BCY_ = RBC p /\ dist cx cy CDX_ CDY_ = RCD p /\
    (exists mu, 1 <= mu /\ dx = mu * CDX_ /\ dy = mu * CDY_) /\
    sqrt (dx^2 + dy^2) = cdr + RCD p /\ dist dx dy CDX_ CDY_ = RCD p.
Proof.
  intros (_ & HBC & HCD & _) Hd Hr.
  set (k := RCD p / (RCD p + RBC p)).
  set (cdr := sqrt (CDX_^2 + CDY_^2)) in *.
  assert (Hk : vdiv (RCD p) (RCD p + RBC p) = Some k) by (apply vdiv_nz; lra).
  exists (CDX_ - k * (CDX_ - BCX_)), (CDY_ - k * (CDY_ - BCY_)), cdr,
    (CDX_ * (cdr + RCD p) / cdr), (CDY_ * (cdr + RCD p) / cdr).
  unfold C_coord, CDR_expr, D_coord; rewrite Hk, vsqrt_sum_sq; cbn [vbind].
  rewrite !vdiv_nz by lra.
  assert (Hlam : 1 - k = RBC p / (RBC p + RCD p)) by (unfold k; field; lra).
  assert (H01 : 0 <= RBC p / (RBC p + RCD p) <= 1).
  { split; [apply div_nonneg; lra|].
    apply (Rmult_le_reg_r (RBC p + RCD p)); [lra|].
    unfold Rdiv; rewrite Rmult_assoc, Rinv_l by lra; lra. }
  assert (Hk0 : 0 <= k) by (apply div_nonneg; lra).
  repeat split.
  - exists (1 - k); split; [lra|]; split; ring.
  - unfold dist.
    replace (CDX_ - k * (CDX_ - BCX_) - BCX_) with ((1 - k) * (CDX_ - BCX_)) by ring.
    replace (CDY_ - k * (CDY_ - BCY_) - BCY_) with ((1 - k) * (CDY_ - BCY_)) by ring.
    rewrite sqrt_scale by lra; fold (dist CDX_ CDY_ BCX_ BCY_); rewrite Hd, Hlam.
    field; lra.
  - unfold dist.
    replace (CDX_ - k * (CDX_ - BCX_) - CDX_) with (k * (BCX_ - CDX_)) by ring.
    replace (CDY_ - k * (CDY_ - BCY_) - CDY_) with (k * (BCY_ - CDY_)) by ring.
    rewrite sqrt_scale by lra.
    replace ((BCX_ - CDX_)^2 + (BCY_ - CDY_)^2)
      with ((CDX_ - BCX_)^2 + (CDY_ - BCY_)^2) by ring.
    fold (dist CDX_ CDY_ BCX_ BCY_); rewrite Hd; unfold k; field; lra.
  - exists ((cdr + RCD p) / cdr); split.
    + apply (Rmult_le_reg_r cdr); [lra|].
      unfold Rdiv; rewrite Rmult_assoc, Rinv_l by lra; lra.
    + split; unfold Rdiv; ring.
  - replace (CDX_ * (cdr + RCD p) / cdr) with (((cdr + RCD p) / cdr) * CDX_)
      by (unfold Rdiv; ring).
    replace (CDY_ * (cdr + RCD p) / cdr) with (((cdr + RCD p) / cdr) * CDY_)
      by (unfold Rdiv; ring).
    rewrite sqrt_scale by (apply div_nonneg; lra); fold cdr; field; lra.
  - unfold dist.
    replace (CDX_ * (cdr + RCD p) / cdr - CDX_) with ((RCD p / cdr) * CDX_)
      by (field; lra).
    replace (CDY_ * (cdr + RCD p) / cdr - CDY_) with ((RCD p / cdr) * CDY_)
      by (field; lra).
    rewrite sqrt_scale by (apply div_nonneg; lra); fold cdr; field; lra.
Qed.

(** [CD = (3, 4)], [BC = (0, 0)], [RBC + RCD = 5]. *)
Definition p_C8 : params := mk_params 1 2 3 1 1 1 1 1 1.

Lemma derived_points_C_D_witness :
  valid_params p_C8 /\ dist 3 4 0 0 = RBC p_C8 + RCD p_C8 /\
  0 < sqrt (3^2 + 4^2) /\
  exists cx cy cdr dx dy,
    C_coord p_C8 3 0 = Some cx /\ C_coord p_C8 4 0 = Some cy /\
    CDR_expr 3 4 = Some cdr /\ cdr = sqrt (3^2 + 4^2) /\
    D_coord p_C8 3 cdr = Some dx /\ D_coord p_C8 4 cdr = Some dy /\
    (exists lam, 0 <= lam <= 1 /\ cx = 0 + lam * (3 - 0) /\ cy = 0 + lam * (4 - 0)) /\
    dist cx cy 0 0 = RBC p_C8 /\ dist cx cy 3 4 = RCD p_C8 /\
    (exists mu, 1 <= mu /\ dx = mu * 3 /\ dy = mu * 4) /\
    sqrt (dx^2 + dy^2) = cdr + RCD p_C8 /\ dist dx dy 3 4 = RCD p_C8.
Proof.
  assert (Hv : valid_params p_C8) by (unfold valid_params, p_C8; simpl; lra).
  assert (H5 : sqrt (3^2 + 4^2) = 5)
    by (replace (3^2 + 4^2) with (5^2) by ring; apply sqrt_pow2; lra).
  assert (Hd : dist 3 4 0 0 = RBC p_C8 + RCD p_C8)
    by (unfold dist, p_C8; cbn [RBC RCD]; rewrite !Rminus_0_r, H5; ring).
  assert (Hr : 0 < sqrt (3^2 + 4^2)) by (rewrite H5; lra).
  split; [exact Hv|]; split; [exact Hd|]; split; [exact Hr|].
  exact (derived_points_C_D p_C8 3 4 0 0 Hv Hd Hr).
Defined.

(** C9 *)

(** Claim C9: with [b = 0] (and [PD <> 0]) Stage 1 gives [BCX = 0], and
    the Stage 2 entry [CDX], which divides by [8*BCX], is undefined. *)
Theorem b_zero_CDX_undefined (p : params) :
  b p = 0 -> PD p <> 0 ->
  BCX (final_sol_eval p) = Some 0 /\ CDX (final_sol_eval p) = None.
Proof.
  intros Hb HPD.
  assert (HD : 0 <= Delta_spec p) by (rewrite Delta_b0 by exact Hb; apply pow2_ge_0).
  assert (HBCX : BCX_eval p = Some 0).
  { rewrite BCX_eval_closed by assumption; unfold two_beta; rewrite Hb.
    unfold Rdiv; rewrite Rmult_0_l, Rmult_0_r, sin_0; f_equal; ring. }
  change (BCX (final_sol_eval p)) with (BCX_eval p).
  change (CDX (final_sol_eval p)) with
    (x <- BCX_eval p ;; y <- BCY_eval p ;; CDX_expr p x y).
  rewrite HBCX, BCY_eval_closed by assumption; cbn [vbind]; split; [reflexivity|].
  unfold CDX_expr; destruct (CDY_expr p 0 _); cbn [vbind]; [|reflexivity].
  rewrite Rmult_0_r; apply vdiv_zero.
Qed.

Lemma b_zero_CDX_undefined_witness :
  b p_flat = 0 /\ PD p_flat <> 0 /\
  BCX (final_sol_eval p_flat) = Some 0 /\ CDX (final_sol_eval p_flat) = None.
Proof.
  assert (Hb : b p_flat = 0) by reflexivity.
  assert (HPD : PD p_flat <> 0) by (simpl; lra).
  split; [exact Hb|]; split; [exact HPD|].
  exact (b_zero_CDX_undefined p_flat Hb HPD).
Defined.

(** C7 *)

(** A parameter set with [RAB = RBC]. *)
Definition p_eq : params := mk_params 1 1 1 0 1 1 1 2 1.

Lemma stage1_AB_den_zero p :
  PD p <> 0 -> RAB p ^ 2 - RBC p ^ 2 = 0 ->
  AX_eval p = None /\ AY_eval p = None /\ BX_eval p = None /\ BY_eval p = None.
Proof.
  intros HPD Hz; unfold AX_eval, AY_eval, BX_eval, BY_eval; rewrite Hz.
  repeat split.
  - exact (stage1_div_zero p HPD (fun beta q =>
      AX_num (RAB p) (RBC p) (L_sub p) (sin beta) (cos beta) q * sin (2 * beta))).
  - exact (stage1_div_zero p HPD (fun beta q =>
      AY_num (RAB p) (RBC p) (L_sub p) (sin beta) (cos beta) q)).
  - exact (stage1_div_zero p HPD (fun beta q =>
      BX_num (RAB p) (RBC p) (L_sub p) (sin beta) (cos beta) q * sin (2 * beta))).
  - exact (stage1_div_zero p HPD (fun beta q =>
      BY_num (RAB p) (RBC p) (L_sub p) (sin beta) (cos beta) q)).
Qed.

(** Claim C7 (counterexample): with [RAB = RBC] nothing is raised; the
    entries [AX], [AY], [BX], [BY] silently evaluate to an undefined value
    (sympy's [nan]/[zoo]) while the other Stage 1 entries are finite. *)
Lemma equal_radii_silently_undefined :
  RAB p_eq = RBC p_eq /\
  AX (final_sol_eval p_eq) = None /\ AY (final_sol_eval p_eq) = None /\
  BX (final_sol_eval p_eq) = None /\ BY (final_sol_eval p_eq) = None /\
  RBXY (final_sol_eval p_eq) = Some (RBXY_r p_eq).
Proof.
  assert (HPD : PD p_eq <> 0) by (simpl; lra).
  assert (HD : 0 <= Delta_spec p_eq) by (rewrite Delta_b0 by reflexivity; apply pow2_ge_0).
  destruct (stage1_AB_den_zero p_eq HPD ltac:(simpl; ring)) as (E1 & E2 & E3 & E4).
  destruct (final_stage1 p_eq) as (-> & -> & -> & -> & _ & _ & _ & _ & ->).
  split; [reflexivity|]; repeat split; try assumption.
  apply RBXY_eval_closed; assumption.
Qed.

(** Claim C7 (as amended): Stage 1 raises nothing.  With [PD <> 0]:
    [ABX = 0] and [ABY = L] are always finite; when [RAB^2 - RBC^2 = 0]
    (for positive radii: [RAB = RBC]) the entries [AX], [AY], [BX], [BY]
    divide by zero and are undefined; when [Delta < 0] the entries [RBXY]
    and [BCX] take [sqrt Delta] and are not real; when [Delta >= 0] and
    [RAB^2 <> RBC^2] all nine entries are finite reals. *)
Theorem stage1_no_error_checks (p : params) :
  PD p <> 0 ->
  let sol := final_sol_eval p in
  ABX sol = Some 0 /\ ABY sol = Some (L_sub p) /\
  (RAB p ^ 2 - RBC p ^ 2 = 0 ->
     AX sol = None /\ AY sol = None /\ BX sol = None /\ BY sol = None) /\
  (Delta_spec p < 0 -> BCX sol = None /\ RBXY sol = None) /\
  (0 <= Delta_spec p -> RAB p ^ 2 - RBC p ^ 2 <> 0 ->
     exists ax ay bx by_ bcx bcy r,
       AX sol = Some ax /\ AY sol = Some ay /\ BX sol = Some bx /\
       BY sol = Some by_ /\ BCX sol = Some bcx /\ BCY sol = Some bcy /\
       RBXY sol = Some r).
Proof.
  intro HPD; cbv zeta.
  destruct (final_stage1 p) as (-> & -> & -> & -> & -> & -> & -> & -> & ->).
  split; [reflexivity|]; split; [reflexivity|].
  split; [apply stage1_AB_den_zero; exact HPD|].
  split.
  - intro HD; unfold BCX_eval, RBXY_eval.
    rewrite !(stage1_entry_neg p HPD) by exact HD; split; reflexivity.
  - intros HD Hden.
    rewrite AX_eval_closed, AY_eval_closed, BX_eval_closed, BY_eval_closed,
      BCX_eval_closed, BCY_eval_closed, RBXY_eval_closed by assumption.
    do 7 eexists; repeat split.
Qed.

Lemma stage1_no_error_checks_witness :
  PD p_flat <> 0 /\
  ABX (final_sol_eval p_flat) = Some 0 /\
  ABY (final_sol_eval p_flat) = Some (L_sub p_flat).
Proof.
  assert (HPD : PD p_flat <> 0) by (simpl; lra).
  split; [exact HPD|].
  destruct (stage1_no_error_checks p_flat HPD) as (E1 & E2 & _).
  split; [exact E1 | exact E2].
Defined.

(** ** Stage 2 closed forms *)

Section Stage2.
Variable p : params.
Variables BCX_ BCY_ : R.

Let d2 := BCX_^2 + BCY_^2.
Let Q := CD_rad p BCX_ BCY_.
Let K := CD_lin p BCX_ BCY_.

(** Radius of the circle of [CD] around the origin. *)
Definition rho : R := PD p / 2 - PLD p - RCD p.

Definition CDY_r : R := (- BCX_ * sqrt Q + BCY_ * K) / (8 * d2).
Definition CDX_r : R := (K * BCX_ + BCY_ * sqrt Q) / (8 * d2).

Hypothesis HQ : 0 <= Q.

Lemma CDY_expr_eval : 0 < d2 -> CDY_expr p BCX_ BCY_ = Some CDY_r.
Proof.
  intro Hd; unfold CDY_expr; fold Q; rewrite vsqrt_nn by exact HQ; cbn [vbind].
  fold d2; rewrite !vdiv_nz by lra; cbn [vbind].
  unfold CDY_r; f_equal; fold K; field; lra.
Qed.

Lemma CDX_expr_eval : BCX_ <> 0 -> CDX_expr p BCX_ BCY_ = Some CDX_r.
Proof.
  intro Hx; assert (Hd : 0 < d2) by (unfold d2; nra).
  unfold CDX_expr; rewrite CDY_expr_eval by exact Hd; cbn [vbind].
  rewrite vdiv_nz by lra; f_equal.
  unfold CDX_r, CDY_r; fold Q K d2.
  replace (4 * BCX_ ^ 2 + 4 * BCY_ ^ 2 -
           8 * BCY_ * ((- BCX_ * sqrt Q + BCY_ * K) / (8 * d2)) +
           PD p ^ 2 - 4 * PD p * PLD p - 4 * PD p * RCD p + 4 * PLD p ^ 2 +
           8 * PLD p * RCD p - 4 * RBC p ^ 2 - 8 * RBC p * RCD p)
    with (K - 8 * BCY_ * ((- BCX_ * sqrt Q + BCY_ * K) / (8 * d2)))
    by (unfold K, CD_lin; ring).
  unfold d2 in *; field; repeat split; try lra.
Qed.

Lemma CD_lin_rho : K = 4 * (d2 + rho ^ 2 - (RBC p + RCD p) ^ 2).
Proof. unfold K, CD_lin, d2, rho; field. Qed.

Lemma CD_rad_rho : K ^ 2 + Q = 64 * d2 * rho ^ 2.
Proof. unfold K, Q, CD_lin, CD_rad, d2, rho; field. Qed.

Hypothesis Hd : 0 < d2.

(** [CD] lies on the circle [CDX^2 + CDY^2 = (PD/2 - PLD - RCD)^2]. *)
Lemma CD_on_circle : CDX_r ^ 2 + CDY_r ^ 2 = rho ^ 2.
Proof.
  pose proof (pow2_sqrt Q HQ) as Hs.
  unfold CDX_r, CDY_r.
  replace (((K * BCX_ + BCY_ * sqrt Q) / (8 * d2)) ^ 2 +
           ((- BCX_ * sqrt Q + BCY_ * K) / (8 * d2)) ^ 2)
    with ((K ^ 2 + sqrt Q ^ 2) / (64 * d2)) by (unfold d2 in *; field; lra).
  rewrite Hs, CD_rad_rho; field; lra.
Qed.

Lemma CD_dot : CDX_r * BCX_ + CDY_r * BCY_ = K / 8.
Proof. unfold CDX_r, CDY_r; unfold d2 in *; field; lra. Qed.

(** [CD] lies on the circle of radius [RBC + RCD] around [BC]. *)
Lemma CD_tangent :
  (CDX_r - BCX_) ^ 2 + (CDY_r - BCY_) ^ 2 = (RBC p + RCD p) ^ 2.
Proof.
  replace ((CDX_r - BCX_) ^ 2 + (CDY_r - BCY_) ^ 2)
    with ((CDX_r ^ 2 + CDY_r ^ 2) - 2 * (CDX_r * BCX_ + CDY_r * BCY_) + d2)
    by (unfold d2; ring).
  rewrite CD_on_circle, CD_dot, CD_lin_rho; field.
Qed.

End Stage2.

Lemma CDY_expr_some p x y v :
  CDY_expr p x y = Some v ->
  0 <= CD_rad p x y /\ 0 < x^2 + y^2 /\ v = CDY_r p x y.
Proof.
  intro E.
  destruct (Rlt_dec (CD_rad p x y) 0) as [Hn|Hn].
  { unfold CDY_expr in E; rewrite vsqrt_neg in E by exact Hn; discriminate. }
  assert (Hd : 0 < x^2 + y^2).
  { destruct (Req_dec_T (x^2 + y^2) 0) as [Z|Z]; [|nra].
    unfold CDY_expr in E; rewrite vsqrt_nn in E by lra; cbn [vbind] in E.
    rewrite Z, Rmult_0_r, vdiv_zero in E; discriminate. }
  rewrite CDY_expr_eval in E by lra; injection E as <-.
  repeat split; lra.
Qed.

Lemma CDX_expr_some p x y v :
  CDX_expr p x y = Some v ->
  0 <= CD_rad p x y /\ x <> 0 /\ v = CDX_r p x y.
Proof.
  intro E; pose proof E as E0; unfold CDX_expr in E0.
  destruct (CDY_expr p x y) as [w|] eqn:Ey; cbn [vbind] in E0; [|discriminate].
  destruct (CDY_expr_some p x y w Ey) as (HQ & _ & _).
  destruct (Req_dec_T x 0) as [Z|Z].
  { rewrite Z, Rmult_0_r, vdiv_zero in E0; discriminate. }
  rewrite CDX_expr_eval in E by assumption; injection E as <-.
  repeat split; assumption.
Qed.

(** [|BC - AB| = |RAB - RBC|]. *)
Lemma BC_AB_sq p :
  0 <= Delta_spec p ->
  (RBXY_r p * sin (two_beta p)) ^ 2 + (RBXY_r p * cos (two_beta p) - L_sub p) ^ 2
  = (RAB p - RBC p) ^ 2.
Proof.
  intro HD.
  pose proof (sin_cos_sq (two_beta p)) as Hsc.
  pose proof (cos_two_beta p) as Hc.
  pose proof (pow2_sqrt _ HD) as Hq.
  unfold RBXY_r.
  replace (((L_sub p - 2 * L_sub p * S_spec p + sqrt (Delta_spec p))
            * sin (two_beta p)) ^ 2)
    with ((L_sub p - 2 * L_sub p * S_spec p + sqrt (Delta_spec p)) ^ 2
          * (sin (two_beta p) ^ 2)) by ring.
  replace (sin (two_beta p) ^ 2) with (1 - cos (two_beta p) ^ 2) by lra.
  rewrite Hc.
  replace (((L_sub p - 2 * L_sub p * S_spec p + sqrt (Delta_spec p)) ^ 2
           * (1 - (1 - 2 * S_spec p) ^ 2)
           + ((L_sub p - 2 * L_sub p * S_spec p + sqrt (Delta_spec p))
              * (1 - 2 * S_spec p) - L_sub p) ^ 2))
    with (sqrt (Delta_spec p) ^ 2 + 4 * L_sub p ^ 2 * S_spec p
          - 4 * L_sub p ^ 2 * S_spec p ^ 2) by ring.
  rewrite Hq; unfold Delta_spec; cbv zeta; ring.
Qed.

Lemma sqrt_sq_pos x : 0 <= x -> sqrt (x ^ 2) = x.
Proof. intro H; apply sqrt_pow2; exact H. Qed.

(** A parameter set of the specification ([PD = P*t/pi]) with
    [PD/2 - PLD - RCD = -2]: [b/PD = pi/4], [L = 0], [Delta = 9]. *)
Definition p_far : params := mk_params 4 1 (1/2) (PI/2) (5/2) (5/2) 2 2 PI.

Lemma p_far_valid : valid_params p_far.
Proof. unfold valid_params, p_far; simpl; pose proof PI_RGT_0; lra. Qed.

Lemma p_far_L : L_sub p_far = 0.
Proof. unfold L_sub; simpl; field. Qed.

Lemma p_far_Delta : Delta_spec p_far = 9.
Proof. unfold Delta_spec; rewrite p_far_L; simpl; ring. Qed.

Lemma p_far_RBXY : RBXY_r p_far = 3.
Proof.
  unfold RBXY_r; rewrite p_far_Delta, p_far_L.
  replace 9 with (3 ^ 2) by ring; rewrite sqrt_pow2 by lra; ring.
Qed.

Lemma p_far_beta : two_beta p_far = PI / 2.
Proof. unfold two_beta; simpl; field. Qed.

Lemma p_far_BC : BCX_eval p_far = Some (-3) /\ BCY_eval p_far = Some 0.
Proof.
  assert (HPD : PD p_far <> 0) by (simpl; lra).
  assert (HD : 0 <= Delta_spec p_far) by (rewrite p_far_Delta; lra).
  rewrite BCX_eval_closed, BCY_eval_closed by assumption.
  rewrite p_far_beta, p_far_RBXY, sin_PI2, cos_PI2; split; f_equal; ring.
Qed.

Lemma p_far_rad : CD_rad p_far (-3) 0 = 455.
Proof. unfold CD_rad; simpl; field. Qed.

Lemma p_far_CD :
  CDX (final_sol_eval p_far) = Some (CDX_r p_far (-3) 0) /\
  CDY (final_sol_eval p_far) = Some (CDY_r p_far (-3) 0).
Proof.
  change (CDX (final_sol_eval p_far)) with
    (x <- BCX_eval p_far ;; y <- BCY_eval p_far ;; CDX_expr p_far x y).
  change (CDY (final_sol_eval p_far)) with
    (x <- BCX_eval p_far ;; y <- BCY_eval p_far ;; CDY_expr p_far x y).
  destruct p_far_BC as [-> ->]; cbn [vbind].
  assert (HQ : 0 <= CD_rad p_far (-3) 0) by (rewrite p_far_rad; lra).
  rewrite CDX_expr_eval, CDY_expr_eval by (auto; lra); split; reflexivity.
Qed.

(** C3 *)

(** Claim C3 (counterexample): [|CD| = PD/2 - PLD - RCD] fails for the valid
    parameter set [p_far] ([RAB <> RBC], [Delta = 9], Stage 2 defined):
    there [PD/2 - PLD - RCD = -2] while the computed [CD] has norm [2]. *)
Lemma CD_norm_not_rho :
  valid_params p_far /\ PD p_far = P p_far * t p_far / PI /\
  RAB p_far <> RBC p_far /\ 0 <= Delta_spec p_far /\
  exists cdx cdy,
    CDX (final_sol_eval p_far) = Some cdx /\ CDY (final_sol_eval p_far) = Some cdy /\
    sqrt (cdx ^ 2 + cdy ^ 2) = 2 /\ PD p_far / 2 - PLD p_far - RCD p_far = -2 /\
    sqrt (cdx ^ 2 + cdy ^ 2) <> PD p_far / 2 - PLD p_far - RCD p_far.
Proof.
  assert (Hr : PD p_far / 2 - PLD p_far - RCD p_far = -2) by (simpl; field).
  assert (HQ : 0 <= CD_rad p_far (-3) 0) by (rewrite p_far_rad; lra).
  assert (Hn : sqrt (CDX_r p_far (-3) 0 ^ 2 + CDY_r p_far (-3) 0 ^ 2) = 2).
  { rewrite CD_on_circle by (auto; lra); unfold rho; rewrite Hr.
    replace ((-2) ^ 2) with (2 ^ 2) by ring; apply sqrt_pow2; lra. }
  split; [exact p_far_valid|].
  split; [simpl; field; apply PI_neq0|].
  split; [simpl; lra|].
  split; [rewrite p_far_Delta; lra|].
  destruct p_far_CD as [Ex Ey].
  exists (CDX_r p_far (-3) 0), (CDY_r p_far (-3) 0); repeat split;
    try assumption; lra.
Qed.

(** Claim C3 (amended): for a valid parameter set with [RAB <> RBC] and
    [Delta >= 0], whenever Stage 2 yields [CD], the points satisfy
    [|B - AB| = RAB], [|B - BC| = RBC], [|CD - BC| = RBC + RCD] and
    [|CD| = |PD/2 - PLD - RCD|]. *)
Theorem tangency_distances (p : params) (cdx cdy : R) :
  valid_params p -> RAB p <> RBC p -> 0 <= Delta_spec p ->
  CDX (final_sol_eval p) = Some cdx -> CDY (final_sol_eval p) = Some cdy ->
  exists bx by_ aby bcx bcy,
    BX (final_sol_eval p) = Some bx /\ BY (final_sol_eval p) = Some by_ /\
    ABX (final_sol_eval p) = Some 0 /\ ABY (final_sol_eval p) = Some aby /\
    BCX (final_sol_eval p) = Some bcx /\ BCY (final_sol_eval p) = Some bcy /\
    dist bx by_ 0 aby = RAB p /\ dist bx by_ bcx bcy = RBC p /\
    dist cdx cdy bcx bcy = RBC p + RCD p /\
    sqrt (cdx ^ 2 + cdy ^ 2) = Rabs (PD p / 2 - PLD p - RCD p).
Proof.
  intros Hv Hne HD Ex Ey.
  pose proof (valid_PD p Hv) as HPD.
  pose proof (valid_den p Hv Hne) as Hden.
  destruct Hv as (HA & HB & HC & _).
  assert (Hdif : RAB p - RBC p <> 0) by lra.
  change (CDX (final_sol_eval p)) with
    (x <- BCX_eval p ;; y <- BCY_eval p ;; CDX_expr p x y) in Ex.
  change (CDY (final_sol_eval p)) with
    (x <- BCX_eval p ;; y <- BCY_eval p ;; CDY_expr p x y) in Ey.
  rewrite BCX_eval_closed, BCY_eval_closed in Ex, Ey by assumption.
  cbn [vbind] in Ex, Ey.
  set (bcx := - RBXY_r p * sin (two_beta p)) in *.
  set (bcy := RBXY_r p * cos (two_beta p)) in *.
  destruct (CDX_expr_some p bcx bcy cdx Ex) as (HQ & Hx & ->).
  destruct (CDY_expr_some p bcx bcy cdy Ey) as (_ & Hd & ->).
  pose proof (BC_AB_sq p HD) as Hsq.
  exists (- (RAB p * RBXY_r p * sin (two_beta p) / (RAB p - RBC p))), (BY_r p),
    (L_sub p), bcx, bcy.
  destruct (final_stage1 p) as (_&_&->&->&->&->&->&->&_).
  rewrite BX_eval_closed, BY_eval_closed, BCX_eval_closed, BCY_eval_closed
    by assumption.
  repeat split; unfold dist.
  - replace (((- (RAB p * RBXY_r p * sin (two_beta p) / (RAB p - RBC p)) - 0) ^ 2
             + (BY_r p - L_sub p) ^ 2))
      with (RAB p ^ 2 * ((RBXY_r p * sin (two_beta p)) ^ 2
            + (RBXY_r p * cos (two_beta p) - L_sub p) ^ 2) / (RAB p - RBC p) ^ 2)
      by (unfold BY_r; field; exact Hdif).
    rewrite Hsq.
    replace (RAB p ^ 2 * (RAB p - RBC p) ^ 2 / (RAB p - RBC p) ^ 2) with (RAB p ^ 2)
      by (field; exact Hdif).
    apply sqrt_sq_pos; lra.
  - replace (((- (RAB p * RBXY_r p * sin (two_beta p) / (RAB p - RBC p)) - bcx) ^ 2
             + (BY_r p - bcy) ^ 2))
      with (RBC p ^ 2 * ((RBXY_r p * sin (two_beta p)) ^ 2
            + (RBXY_r p * cos (two_beta p) - L_sub p) ^ 2) / (RAB p - RBC p) ^ 2)
      by (unfold BY_r, bcx, bcy; field; exact Hdif).
    rewrite Hsq.
    replace (RBC p ^ 2 * (RAB p - RBC p) ^ 2 / (RAB p - RBC p) ^ 2) with (RBC p ^ 2)
      by (field; exact Hdif).
    apply sqrt_sq_pos; lra.
  - rewrite CD_tangent by assumption; apply sqrt_sq_pos; lra.
  - rewrite CD_on_circle by assumption; apply sqrt_sq_abs.
Qed.

Lemma tangency_distances_witness :
  valid_params p_far /\ RAB p_far <> RBC p_far /\ 0 <= Delta_spec p_far /\
  CDX (final_sol_eval p_far) = Some (CDX_r p_far (-3) 0) /\
  CDY (final_sol_eval p_far) = Some (CDY_r p_far (-3) 0) /\
  exists bx by_ aby bcx bcy,
    BX (final_sol_eval p_far) = Some bx /\ BY (final_sol_eval p_far) = Some by_ /\
    ABX (final_sol_eval p_far) = Some 0 /\ ABY (final_sol_eval p_far) = Some aby /\
    BCX (final_sol_eval p_far) = Some bcx /\ BCY (final_sol_eval p_far) = Some bcy /\
    dist bx by_ 0 aby = RAB p_far /\ dist bx by_ bcx bcy = RBC p_far /\
    dist (CDX_r p_far (-3) 0) (CDY_r p_far (-3) 0) bcx bcy = RBC p_far + RCD p_far /\
    sqrt (CDX_r p_far (-3) 0 ^ 2 + CDY_r p_far (-3) 0 ^ 2)
      = Rabs (PD p_far / 2 - PLD p_far - RCD p_far).
Proof.
  assert (Hne : RAB p_far <> RBC p_far) by (simpl; lra).
  assert (HD : 0 <= Delta_spec p_far) by (rewrite p_far_Delta; lra).
  destruct p_far_CD as [Ex Ey].
  split; [exact p_far_valid|]; split; [exact Hne|]; split; [exact HD|].
  split; [exact Ex|]; split; [exact Ey|].
  exact (tangency_distances p_far _ _ p_far_valid Hne HD Ex Ey).
Defined.

(** * Reference fixture

    Taylor enclosures of sin and cos and interval arithmetic, used to bound
    the entries of [final_sol_eval] at [param_associations]. *)

Lemma INR_fact_3 : INR (fact 3) = 6.
Proof. rewrite !fact_simpl, !mult_INR; simpl; ring. Qed.
Lemma INR_fact_5 : INR (fact 5) = 120.
Proof. rewrite !fact_simpl, !mult_INR; simpl; ring. Qed.
Lemma INR_fact_7 : INR (fact 7) = 5040.
Proof. rewrite !fact_simpl, !mult_INR; simpl; ring. Qed.
Lemma INR_fact_9 : INR (fact 9) = 362880.
Proof. rewrite !fact_simpl, !mult_INR; simpl; ring. Qed.
Lemma INR_fact_2 : INR (fact 2) = 2.
Proof. rewrite !fact_simpl, !mult_INR; simpl; ring. Qed.
Lemma INR_fact_4 : INR (fact 4) = 24.
Proof. rewrite !fact_simpl, !mult_INR; simpl; ring. Qed.
Lemma INR_fact_6 : INR (fact 6) = 720.
Proof. rewrite !fact_simpl, !mult_INR; simpl; ring. Qed.
Lemma INR_fact_8 : INR (fact 8) = 40320.
Proof. rewrite !fact_simpl, !mult_INR; simpl; ring. Qed.

(** Taylor enclosures of [sin] and [cos] on [[0, 2]]. *)
Lemma sin_taylor a :
  0 <= a <= 2 ->
  a - a^3/6 + a^5/120 - a^7/5040 <= sin a <=
  a - a^3/6 + a^5/120 - a^7/5040 + a^9/362880.
Proof.
  intro H; destruct (pre_sin_bound a 1 ltac:(lra) ltac:(lra)) as [H1 H2].
  unfold sin_approx, sin_term in H1, H2; cbn [sum_f_R0 Nat.mul Nat.add] in H1, H2.
  change (fact 1) with 1%nat in H1, H2.
  rewrite INR_fact_3, INR_fact_5, INR_fact_7 in H1, H2;
    rewrite INR_fact_9 in H2; simpl INR in H1, H2.
  split.
  - eapply Rle_trans; [|exact H1]; right; field.
  - eapply Rle_trans; [exact H2|]; right; field.
Qed.

Lemma cos_taylor a :
  -2 <= a <= 2 ->
  1 - a^2/2 + a^4/24 - a^6/720 <= cos a <=
  1 - a^2/2 + a^4/24 - a^6/720 + a^8/40320.
Proof.
  intro H; destruct (pre_cos_bound a 1 ltac:(lra) ltac:(lra)) as [H1 H2].
  unfold cos_approx, cos_term in H1, H2; cbn [sum_f_R0 Nat.mul Nat.add] in H1, H2.
  change (fact 0) with 1%nat in H1, H2.
  rewrite INR_fact_2, INR_fact_4, INR_fact_6 in H1, H2;
    rewrite INR_fact_8 in H2; simpl INR in H1, H2.
  split.
  - eapply Rle_trans; [|exact H1]; right; field.
  - eapply Rle_trans; [exact H2|]; right; field.
Qed.

(** Interval rules. *)
Lemma I_mul x y lx ux ly uy :
  0 <= lx -> lx <= x <= ux -> 0 <= ly -> ly <= y <= uy ->
  lx * ly <= x * y <= ux * uy.
Proof. intros; split; apply Rmult_le_compat; lra. Qed.

Lemma I_div x y lx ux ly uy :
  0 <= lx -> lx <= x <= ux -> 0 < ly -> ly <= y <= uy ->
  lx / uy <= x / y <= ux / ly.
Proof.
  intros H0 Hx H1 Hy; unfold Rdiv.
  assert (/ uy <= / y) by (apply Rinv_le_contravar; lra).
  assert (/ y <= / ly) by (apply Rinv_le_contravar; lra).
  assert (0 <= / uy) by (left; apply Rinv_0_lt_compat; lra).
  split; apply Rmult_le_compat; lra.
Qed.

Lemma I_sqrt x l u :
  0 <= l -> 0 <= u -> l ^ 2 <= x -> x <= u ^ 2 -> l <= sqrt x <= u.
Proof.
  intros Hl Hu H1 H2; split.
  - rewrite <- (sqrt_pow2 l Hl); apply sqrt_le_1_alt; exact H1.
  - rewrite <- (sqrt_pow2 u Hu); apply sqrt_le_1_alt; exact H2.
Qed.

Definition fx_beta : R := 40000000000 / 636619772368.
Definition fx_gamma : R := 50000000000 / 636619772368.

Ltac interval_mul H1 H2 :=
  lazymatch type of H1 with ?l1 <= ?x <= ?u1 =>
  lazymatch type of H2 with ?l2 <= ?y <= ?u2 =>
    pose proof (I_mul x y l1 u1 l2 u2 ltac:(lra) H1 ltac:(lra) H2); lra
  end end.

Ltac interval_div H1 H2 :=
  lazymatch type of H1 with ?l1 <= ?x <= ?u1 =>
  lazymatch type of H2 with ?l2 <= ?y <= ?u2 =>
    pose proof (I_div x y l1 u1 l2 u2 ltac:(lra) H1 ltac:(lra) H2); lra
  end end.

(** Enclosures of the reference evaluation, from Taylor bounds of [sin]
    and [cos] at [b/PD] and [P/(4*PD)] and interval arithmetic. *)
Lemma fixture_bounds (rb bcx bcy kk sq cdx cdy cx cy dx dy ax by_ sn cs : R) :
  rb = RBXY_r param_associations ->
  bcx = - rb * sin (two_beta param_associations) ->
  bcy = rb * cos (two_beta param_associations) ->
  kk = CD_lin param_associations bcx bcy ->
  sq = sqrt (CD_rad param_associations bcx bcy) ->
  cdx = CDX_r param_associations bcx bcy ->
  cdy = CDY_r param_associations bcx bcy ->
  cx = cdx - RCD param_associations / (RCD param_associations + RBC param_associations) * (cdx - bcx) ->
  cy = cdy - RCD param_associations / (RCD param_associations + RBC param_associations) * (cdy - bcy) ->
  dx = cdx * (rho param_associations + RCD param_associations) / rho param_associations ->
  dy = cdy * (rho param_associations + RCD param_associations) / rho param_associations ->
  ax = RAB param_associations * rb * sin (two_beta param_associations) / (RAB param_associations - RBC param_associations) ->
  by_ = BY_r param_associations ->
  sn = sin (2 * (- P param_associations / PD param_associations)) ->
  cs = cos (2 * (- P param_associations / PD param_associations)) ->
  0 <= Delta_spec param_associations /\ 0 <= CD_rad param_associations bcx bcy /\
  bcx < 0 /\ 0 < bcy /\ 0 < cdy /\ 0 < cy /\ 0 < dy /\ 0 < by_ /\
  (187277556321001 / 62500000000000) <= rb <= (2996440901136017 / 1000000000000000) /\
  (1486406534818537 / 500000000000000) <= bcy <= (743203267409269 / 250000000000000) /\
  (184118672443479 / 250000000000000) <= cdx <= (736474689773919 / 1000000000000000) /\
  (118285503595721 / 200000000000000) <= cx <= (36964219873663 / 62500000000000) /\
  (776225417962457 / 1000000000000000) <= dx <= (776225417962461 / 1000000000000000) /\
  (- (468387108234889 / 1000000000000000)) <= ax <= (- (93677421646977 / 200000000000000)) /\
  (304547080952647 / 125000000000000) <= by_ <= (2436376647621177 / 1000000000000000) /\
  (1032146427991529 / 1000000000000000) <= - (sn * dy + cs * dx) <= (1032146427991619 / 1000000000000000) /\
  (2546512365389653 / 1000000000000000) <= cs * cy - sn * cx <= (1273256182694857 / 500000000000000) /\
  (1123190573604301 / 500000000000000) <= cs * by_ - sn * - ax <= (1123190573604327 / 500000000000000) /\
  (64100154592433 / 31250000000000) <= - (sn * bcy + cs * bcx) <= (2051204946957943 / 1000000000000000).
Proof.
  intros Erb Ebcx Ebcy Ekk Esq Ecdx Ecdy Ecx Ecy Edx Edy Eax Eby Esn Ecs.
  assert (Eb : b param_associations / PD param_associations = fx_beta) by (unfold fx_beta; simpl; field).
  assert (Etb : two_beta param_associations = 2 * fx_beta)
    by (unfold two_beta; rewrite Eb; reflexivity).
  assert (EL : L_sub param_associations = (34176235773 / 12500000000)) by (unfold L_sub; simpl; field).
  assert (Erb' : rb = (34176235773 / 12500000000) - 2 * (34176235773 / 12500000000) * (sin fx_beta * sin fx_beta)
                      + sqrt (Delta_spec param_associations))
    by (rewrite Erb; unfold RBXY_r, S_spec; rewrite EL, Eb; field).
  assert (ED : Delta_spec param_associations =
               (7921 / 40000) + 4 * (34176235773 / 12500000000) ^ 2 * sin fx_beta ^ 4
               - 4 * (34176235773 / 12500000000) ^ 2 * sin fx_beta ^ 2)
    by (unfold Delta_spec, S_spec; rewrite EL, Eb; simpl; field).
  rewrite Etb, sin_2a in Ebcx, Eax; rewrite Etb, cos_2a_sin in Ebcy.
  assert (Ed2 : bcx ^ 2 + bcy ^ 2 = rb ^ 2).
  { rewrite Ebcx, Ebcy.
    replace ((- rb * (2 * sin fx_beta * cos fx_beta)) ^ 2
             + (rb * (1 - 2 * sin fx_beta * sin fx_beta)) ^ 2)
      with (rb ^ 2 + 4 * rb ^ 2 * sin fx_beta ^ 2
            * (sin fx_beta ^ 2 + cos fx_beta ^ 2 - 1)) by ring.
    rewrite sin_cos_sq; ring. }
  assert (EQ : CD_rad param_associations bcx bcy =
               - (4 * rb ^ 2 + (- (2412159041580059907529 / 39062500000000000000))) * (4 * rb ^ 2 + (- (414681734632559907529 / 39062500000000000000)))).
  { unfold CD_rad; replace (bcy ^ 2) with (rb ^ 2 - bcx ^ 2) by lra; simpl; field. }
  assert (EK : kk = 4 * rb ^ 2 + (1000139138106309907529 / 39062500000000000000)).
  { rewrite Ekk; unfold CD_lin; replace (bcy ^ 2) with (rb ^ 2 - bcx ^ 2) by lra;
    simpl; field. }
  assert (Ek : RCD param_associations / (RCD param_associations + RBC param_associations) = 3 / 23) by (simpl; field).
  rewrite Ek in Ecx, Ecy.
  assert (Edx' : dx = (12204578591 / 11579578591) * cdx) by (rewrite Edx; unfold rho; simpl; field).
  assert (Edy' : dy = (12204578591 / 11579578591) * cdy) by (rewrite Edy; unfold rho; simpl; field).
  assert (Eax' : ax = - (111 / 89) * (rb * (sin fx_beta * cos fx_beta)) * 2)
    by (rewrite Eax; simpl; field).
  assert (Eby' : by_ = 200 / 89 * ((34176235773 / 12500000000) - 111 / 200
                        * (rb * (1 - 2 * sin fx_beta * sin fx_beta)))).
  { rewrite Eby; unfold BY_r; rewrite Etb, cos_2a_sin, <- Erb, EL; simpl; field. }
  assert (Eth : 2 * (- P param_associations / PD param_associations) = - (2 * (2 * (2 * fx_gamma))))
    by (unfold fx_gamma; simpl; field).
  rewrite Eth, sin_neg, sin_2a in Esn; rewrite Eth, cos_neg, cos_2a_sin in Ecs.
  assert (Hs : (31395259764636047885951 / 500000000000000000000000) <= sin fx_beta <= (62790519529272137830597 / 1000000000000000000000000))
    by (pose proof (sin_taylor fx_beta ltac:(unfold fx_beta; lra)) as T; unfold fx_beta in T |- *; lra).
  assert (Hc : (124753341053533516530381 / 125000000000000000000000) <= cos fx_beta <= (499013364214137078353593 / 500000000000000000000000))
    by (pose proof (cos_taylor fx_beta ltac:(unfold fx_beta; lra)) as T; unfold fx_beta in T |- *; lra).
  assert (Hsg : (78459095727793141179913 / 1000000000000000000000000) <= sin fx_gamma <= (78459095727793454541603 / 1000000000000000000000000))
    by (pose proof (sin_taylor fx_gamma ltac:(unfold fx_gamma; lra)) as T; unfold fx_gamma in T |- *; lra).
  assert (Hcg : (996917333733096122445247 / 1000000000000000000000000) <= cos fx_gamma <= (498458666866566015524867 / 500000000000000000000000))
    by (pose proof (cos_taylor fx_gamma ltac:(unfold fx_gamma; lra)) as T; unfold fx_gamma in T |- *; lra).
  assert (Hss : (3942649342755900451599 / 1000000000000000000000000) <= sin fx_beta * sin fx_beta <= (31541194742047245867 / 8000000000000000000000))
    by (interval_mul Hs Hs).
  assert (Hsc : (12533323356422141697261 / 200000000000000000000000) <= sin fx_beta * cos fx_beta <= (62666616782111128741241 / 1000000000000000000000000))
    by (interval_mul Hs Hc).
  assert (H1ss : (7968458805257952754133 / 8000000000000000000000) <= 1 - sin fx_beta * sin fx_beta <= (996057350657244099548401 / 1000000000000000000000000))
    by (lra).
  assert (H2ss : (3968458805257952754133 / 4000000000000000000000) <= 1 - 2 * sin fx_beta * sin fx_beta <= (496057350657244099548401 / 500000000000000000000000))
    by (lra).
  assert (Ht : (1963552429457983448487 / 500000000000000000000000) <= sin fx_beta * sin fx_beta * (1 - sin fx_beta * sin fx_beta) <= (3927104858915972178751 / 1000000000000000000000000))
    by (interval_mul Hss H1ss).
  assert (HD : (80599905816180936238079 / 1000000000000000000000000) <= Delta_spec param_associations <= (40299952908090547084739 / 500000000000000000000000))
    by (rewrite ED; lra).
  assert (Hq : (141950612728671354825007 / 500000000000000000000000) <= sqrt (Delta_spec param_associations) <= (28390122545734298779499 / 100000000000000000000000))
    by (apply I_sqrt; lra).
  assert (Hrb : (93638778160500513056903 / 31250000000000000000000) <= rb <= (749110225284004181211917 / 250000000000000000000000))
    by (rewrite Erb'; lra).
  assert (Hrbsc : (187776813661733220750109 / 1000000000000000000000000) <= rb * (sin fx_beta * cos fx_beta) <= (93888406830867249629759 / 500000000000000000000000))
    by (interval_mul Hrb Hsc).
  assert (Hrbc : (1486406534818537379871337 / 500000000000000000000000) <= rb * (1 - 2 * sin fx_beta * sin fx_beta) <= (743203267409268774000377 / 250000000000000000000000))
    by (interval_mul Hrb H2ss).
  assert (Hbcx : (187776813661733220750109 / 500000000000000000000000) <= - bcx <= (93888406830867249629759 / 250000000000000000000000))
    by (rewrite Ebcx; lra).
  assert (Hbcy : (1486406534818537379871337 / 500000000000000000000000) <= bcy <= (743203267409268774000377 / 250000000000000000000000))
    by (rewrite Ebcy; lra).
  assert (Hrr : (561166129625051382259411 / 62500000000000000000000) <= rb * rb <= (2244664518500205989031433 / 250000000000000000000000))
    by (interval_mul Hrb Hrb).
  assert (HF1 : (1614789948027889863014967 / 62500000000000000000000) <= - (4 * rb ^ 2 + (- (2412159041580059907529 / 39062500000000000000))) <= (403697487006972580752189 / 15625000000000000000000))
    by (lra).
  assert (HF2 : (395293435772027419247811 / 15625000000000000000000) <= 4 * rb ^ 2 + (- (414681734632559907529 / 39062500000000000000)) <= (1581173743088110136985033 / 62500000000000000000000))
    by (lra).
  assert (HQ : (65363544740462405217909189 / 100000000000000000000000) <= CD_rad param_associations bcx bcy <= (163408861851156107132673631 / 250000000000000000000000))
    by (rewrite EQ; interval_mul HF1 HF2).
  assert (Hsq : (6391573786070923804961313 / 250000000000000000000000) <= sq <= (6391573786070925645038261 / 250000000000000000000000))
    by (rewrite Esq; apply I_sqrt; lra).
  assert (Hkk : (961221784867575345271011 / 15625000000000000000000) <= kk <= (3844887139470301841077833 / 62500000000000000000000))
    by (rewrite EK; lra).
  assert (HP1 : (12682348635394533994822053 / 500000000000000000000000) <= (1 - 2 * sin fx_beta * sin fx_beta) * sq <= (12682348635394537780992281 / 500000000000000000000000))
    by (interval_mul H2ss Hsq).
  assert (HP2 : (771027420606883919211723 / 200000000000000000000000) <= (sin fx_beta * cos fx_beta) * kk <= (3855137103034445910603467 / 1000000000000000000000000))
    by (interval_mul Hsc Hkk).
  assert (HP3 : (801076610172582066034389 / 500000000000000000000000) <= (sin fx_beta * cos fx_beta) * sq <= (25033644067893364651189 / 15625000000000000000000))
    by (interval_mul Hsc Hsq).
  assert (HP4 : (15258276223853979778723551 / 250000000000000000000000) <= (1 - 2 * sin fx_beta * sin fx_beta) * kk <= (30516552447707963533305229 / 500000000000000000000000))
    by (interval_mul H2ss Hkk).
  assert (H8rb : (93638778160500513056903 / 3906250000000000000000) <= 8 * rb <= (749110225284004181211917 / 31250000000000000000000))
    by (lra).
  assert (Hnx : (4413605766180044042109293 / 250000000000000000000000) <= (1 - 2 * sin fx_beta * sin fx_beta) * sq - 2 * (sin fx_beta * cos fx_beta) * kk <= (4413605766180059092466833 / 250000000000000000000000))
    by (lra).
  assert (Hny : (802967641701328092237897 / 12500000000000000000000) <= 2 * (sin fx_beta * cos fx_beta) * sq + (1 - 2 * sin fx_beta * sin fx_beta) * kk <= (1284748226722125554839253 / 20000000000000000000000))
    by (lra).
  assert (Hrb0 : rb <> 0) by lra.
  assert (Ecdx' : cdx = ((1 - 2 * sin fx_beta * sin fx_beta) * sq - 2 * (sin fx_beta * cos fx_beta) * kk) / (8 * rb)).
  { rewrite Ecdx; unfold CDX_r; rewrite Ed2, <- Ekk, <- Esq, Ebcx, Ebcy; field; exact Hrb0. }
  assert (Ecdy' : cdy = (2 * (sin fx_beta * cos fx_beta) * sq + (1 - 2 * sin fx_beta * sin fx_beta) * kk) / (8 * rb)).
  { rewrite Ecdy; unfold CDY_r; rewrite Ed2, <- Ekk, <- Esq, Ebcx, Ebcy; field; exact Hrb0. }
  assert (Hcdx : (736474689773916267143623 / 1000000000000000000000000) <= cdx <= (736474689773918853977963 / 1000000000000000000000000))
    by (rewrite Ecdx'; interval_div Hnx H8rb).
  assert (Hcdy : (2679737956443277017627911 / 1000000000000000000000000) <= cdy <= (2679737956443278558828893 / 1000000000000000000000000))
    by (rewrite Ecdy'; interval_div Hny H8rb).
  assert (Hcx : (11828550359572102910709 / 20000000000000000000000) <= cx <= (591427517978607728480809 / 1000000000000000000000000))
    by (rewrite Ecx; lra).
  assert (Hcy : (339745643140091112129273 / 125000000000000000000000) <= cy <= (424682053925114106417 / 156250000000000000000))
    by (rewrite Ecy; lra).
  assert (Hdx : (776225417962457965946171 / 1000000000000000000000000) <= dx <= (776225417962460692403163 / 1000000000000000000000000))
    by (rewrite Edx'; lra).
  assert (Hdy : (1412187509056550829848067 / 500000000000000000000000) <= dy <= (353046877264137910510301 / 125000000000000000000000))
    by (rewrite Edy'; lra).
  assert (Hax : (58548388529360639054107 / 125000000000000000000000) <= - ax <= (234193554117444150761871 / 500000000000000000000000))
    by (rewrite Eax'; lra).
  assert (Hby : (2436376647621176003863287 / 1000000000000000000000000) <= by_ <= (2436376647621176423242283 / 1000000000000000000000000))
    by (rewrite Eby'; lra).
  assert (Hgsc : (2444288516251915347793 / 31250000000000000000000) <= sin fx_gamma * cos fx_gamma <= (15643446504012884176343 / 200000000000000000000000))
    by (interval_mul Hsg Hcg).
  assert (Hgss : (6155829702423007938049 / 1000000000000000000000000) <= sin fx_gamma * sin fx_gamma <= (6155829702423057110199 / 1000000000000000000000000))
    by (interval_mul Hsg Hsg).
  assert (Hg1s : (2444288516251915347793 / 15625000000000000000000) <= sin (2 * fx_gamma) <= (15643446504012884176343 / 100000000000000000000000))
    by (rewrite sin_2a; lra).
  assert (Hg1c : (493844170297576942889801 / 500000000000000000000000) <= cos (2 * fx_gamma) <= (493844170297576992061951 / 500000000000000000000000))
    by (rewrite cos_2a_sin; lra).
  assert (Hg1sc : (77254248593684643203071 / 500000000000000000000000) <= sin (2 * fx_gamma) * cos (2 * fx_gamma) <= (154508497187375484230369 / 1000000000000000000000000))
    by (interval_mul Hg1s Hg1c).
  assert (Hg1ss : (12235870926194667190871 / 500000000000000000000000) <= sin (2 * fx_gamma) * sin (2 * fx_gamma) <= (12235870926195646393137 / 500000000000000000000000))
    by (interval_mul Hg1s Hg1s).
  assert (Hg2s : (77254248593684643203071 / 250000000000000000000000) <= sin (2 * (2 * fx_gamma)) <= (154508497187375484230369 / 500000000000000000000000))
    by (rewrite sin_2a; lra).
  assert (Hg2c : (237764129073804353606863 / 250000000000000000000000) <= cos (2 * (2 * fx_gamma)) <= (237764129073805332809129 / 250000000000000000000000))
    by (rewrite cos_2a_sin; lra).
  assert (Hg2sc : (58778525229211532712623 / 200000000000000000000000) <= sin (2 * (2 * fx_gamma)) * cos (2 * (2 * fx_gamma)) <= (293892626146070662885917 / 1000000000000000000000000))
    by (interval_mul Hg2s Hg2c).
  assert (Hg2ss : (95491502812397210753033 / 1000000000000000000000000) <= sin (2 * (2 * fx_gamma)) * sin (2 * (2 * fx_gamma)) <= (95491502812404871685091 / 1000000000000000000000000))
    by (interval_mul Hg2s Hg2s).
  assert (Hsn : (58778525229211532712623 / 100000000000000000000000) <= - sn <= (293892626146070662885917 / 500000000000000000000000))
    by (rewrite Esn; lra).
  assert (Hcs : (404508497187595128314909 / 500000000000000000000000) <= cs <= (404508497187602789246967 / 500000000000000000000000))
    by (rewrite Ecs; lra).
  assert (HE1 : (166012598258915725588937 / 100000000000000000000000) <= - sn * dy <= (103757873911826977537801 / 62500000000000000000000))
    by (interval_mul Hsn Hdy).
  assert (HE2 : (627979554597613562229047 / 1000000000000000000000000) <= cs * dx <= (627979554597627661199467 / 1000000000000000000000000))
    by (interval_mul Hcs Hdx).
  assert (HF1' : (2198879992522099899676277 / 1000000000000000000000000) <= cs * cy <= (2198879992522142663676429 / 1000000000000000000000000))
    by (interval_mul Hcs Hcy).
  assert (HF2' : (13905294914702159958513 / 40000000000000000000000) <= - sn * cx <= (43454046608446361686807 / 125000000000000000000000))
    by (interval_mul Hsn Hcx).
  assert (HG1 : (1971070112624385841058293 / 1000000000000000000000000) <= cs * by_ <= (1971070112624423510174959 / 1000000000000000000000000))
    by (interval_mul Hcs Hby).
  assert (HG2 : (34413879323027034293267 / 125000000000000000000000) <= - sn * - ax <= (275311034584230326277161 / 1000000000000000000000000))
    by (interval_mul Hsn Hax).
  assert (HH1 : (1747375680153925798520353 / 1000000000000000000000000) <= - sn * bcy <= (873687840077001642640891 / 500000000000000000000000))
    by (interval_mul Hsn Hbcy).
  assert (HH2 : (303829266803931147976133 / 1000000000000000000000000) <= cs * - bcx <= (303829266803938970829459 / 1000000000000000000000000))
    by (interval_mul Hcs Hbcx).
  repeat split; lra.
Qed.

(** [x] agrees with [c] up to [tol]. *)
Definition near (x c tol : R) : Prop := Rabs (x - c) <= tol.

Lemma near_intro x c tol : c - tol <= x <= c + tol -> near x c tol.
Proof. intro H; unfold near; apply Rabs_le; lra. Qed.

(** Claim C2: for [param_associations] (RAB=0.555, RBC=1, RCD=0.15, b=0.4,
    h=0.75, PLD=0.254, t=10, PD=6.36619772368, P=2) the listed entries of
    [final_sol_eval] are finite and agree with the reference values to 9
    significant digits: each lies within half a unit of the 9th significant
    digit of the stated value. *)
Theorem reference_fixture :
  let sol := final_sol_eval param_associations in
  exists ax by_ aby bcy rbxy cdx cx dx tang ex fy gy fgx,
    AX sol = Some ax /\ BY sol = Some by_ /\ ABY sol = Some aby /\
    BCY sol = Some bcy /\ RBXY sol = Some rbxy /\ CDX sol = Some cdx /\
    CX sol = Some cx /\ DX sol = Some dx /\ TANG sol = Some tang /\
    EX sol = Some ex /\ FY sol = Some fy /\ GY sol = Some gy /\
    FGX sol = Some fgx /\
    near ax (- (468387108 / 1000000000)) (5 / 10000000000) /\
    near by_ (2436376648 / 1000000000) (5 / 1000000000) /\
    near aby (2734098862 / 1000000000) (5 / 1000000000) /\
    near bcy (2972813070 / 1000000000) (5 / 1000000000) /\
    near rbxy (2996440901 / 1000000000) (5 / 1000000000) /\
    near cdx (736474690 / 1000000000) (5 / 10000000000) /\
    near cx (591427518 / 1000000000) (5 / 10000000000) /\
    near dx (776225418 / 1000000000) (5 / 10000000000) /\
    near tang (- (314159265 / 1000000000)) (5 / 10000000000) /\
    near ex (1032146428 / 1000000000) (5 / 1000000000) /\
    near fy (2546512365 / 1000000000) (5 / 1000000000) /\
    near gy (2246381147 / 1000000000) (5 / 1000000000) /\
    near fgx (2051204947 / 1000000000) (5 / 1000000000).
Proof.
  cbv zeta.
  set (pa := param_associations).
  set (rb := RBXY_r pa).
  set (bcx := - rb * sin (two_beta pa)).
  set (bcy := rb * cos (two_beta pa)).
  set (cdx := CDX_r pa bcx bcy).
  set (cdy := CDY_r pa bcx bcy).
  set (cx := cdx - RCD pa / (RCD pa + RBC pa) * (cdx - bcx)).
  set (cy := cdy - RCD pa / (RCD pa + RBC pa) * (cdy - bcy)).
  set (dx := cdx * (rho pa + RCD pa) / rho pa).
  set (dy := cdy * (rho pa + RCD pa) / rho pa).
  set (ax := RAB pa * rb * sin (two_beta pa) / (RAB pa - RBC pa)).
  set (by_ := BY_r pa).
  set (th := - P pa / PD pa).
  set (sn := sin (2 * th)).
  set (cs := cos (2 * th)).
  destruct (fixture_bounds rb bcx bcy (CD_lin pa bcx bcy) (sqrt (CD_rad pa bcx bcy))
              cdx cdy cx cy dx dy ax by_ sn cs eq_refl eq_refl eq_refl eq_refl
              eq_refl eq_refl eq_refl eq_refl eq_refl eq_refl eq_refl eq_refl
              eq_refl eq_refl eq_refl)
    as (HD & HQ & Hbcx & Hbcy & Hcdy & Hcy & Hdy & Hby & Brb & Bbcy & Bcdx & Bcx
        & Bdx & Bax & Bby & Bex & Bfy & Bgy & Bfgx).
  assert (HPD : PD pa <> 0) by (simpl; lra).
  assert (Hden : RAB pa ^ 2 - RBC pa ^ 2 <> 0) by (simpl; lra).
  assert (Hk : RCD pa + RBC pa <> 0) by (simpl; lra).
  assert (Hrho : 0 < rho pa) by (unfold rho; simpl; lra).
  assert (Hd2 : 0 < bcx ^ 2 + bcy ^ 2) by nra.
  (* Stage 1 *)
  assert (EBCX : BCX (final_sol_eval pa) = Some bcx)
    by (apply BCX_eval_closed; assumption).
  assert (EBCY : BCY (final_sol_eval pa) = Some bcy)
    by (apply BCY_eval_closed; assumption).
  assert (EBX : BX (final_sol_eval pa) = Some (- ax))
    by (apply BX_eval_closed; assumption).
  assert (EBY : BY (final_sol_eval pa) = Some by_)
    by (apply BY_eval_closed; assumption).
  (* Stage 2 and the derived points *)
  assert (ECDX : CDX (final_sol_eval pa) = Some cdx).
  { change (CDX (final_sol_eval pa)) with
      (x <- BCX (final_sol_eval pa) ;; y <- BCY (final_sol_eval pa) ;;
       CDX_expr pa x y).
    rewrite EBCX, EBCY; cbn [vbind]; apply CDX_expr_eval; [exact HQ | lra]. }
  assert (ECDY : CDY (final_sol_eval pa) = Some cdy).
  { change (CDY (final_sol_eval pa)) with
      (x <- BCX (final_sol_eval pa) ;; y <- BCY (final_sol_eval pa) ;;
       CDY_expr pa x y).
    rewrite EBCX, EBCY; cbn [vbind]; apply CDY_expr_eval; assumption. }
  assert (Ecdr : sqrt (cdx ^ 2 + cdy ^ 2) = rho pa).
  { unfold cdx, cdy; rewrite CD_on_circle by assumption.
    apply sqrt_pow2; lra. }
  assert (ECX : CX (final_sol_eval pa) = Some cx).
  { change (CX (final_sol_eval pa)) with
      (x <- CDX (final_sol_eval pa) ;; x0 <- BCX (final_sol_eval pa) ;;
       C_coord pa x x0).
    rewrite ECDX, EBCX; cbn [vbind]; unfold C_coord.
    rewrite vdiv_nz by exact Hk; reflexivity. }
  assert (ECY : CY (final_sol_eval pa) = Some cy).
  { change (CY (final_sol_eval pa)) with
      (y <- CDY (final_sol_eval pa) ;; y0 <- BCY (final_sol_eval pa) ;;
       C_coord pa y y0).
    rewrite ECDY, EBCY; cbn [vbind]; unfold C_coord.
    rewrite vdiv_nz by exact Hk; reflexivity. }
  assert (ECDR : CDR (final_sol_eval pa) = Some (rho pa)).
  { change (CDR (final_sol_eval pa)) with
      (x <- CDX (final_sol_eval pa) ;; y <- CDY (final_sol_eval pa) ;;
       CDR_expr x y).
    rewrite ECDX, ECDY; cbn [vbind]; unfold CDR_expr.
    rewrite vsqrt_sum_sq, Ecdr; reflexivity. }
  assert (EDX : DX (final_sol_eval pa) = Some dx).
  { change (DX (final_sol_eval pa)) with
      (x <- CDX (final_sol_eval pa) ;; r <- CDR (final_sol_eval pa) ;;
       D_coord pa x r).
    rewrite ECDX, ECDR; cbn [vbind]; unfold D_coord.
    rewrite vdiv_nz by lra; reflexivity. }
  assert (EDY : DY (final_sol_eval pa) = Some dy).
  { change (DY (final_sol_eval pa)) with
      (y <- CDY (final_sol_eval pa) ;; r <- CDR (final_sol_eval pa) ;;
       D_coord pa y r).
    rewrite ECDY, ECDR; cbn [vbind]; unfold D_coord.
    rewrite vdiv_nz by lra; reflexivity. }
  (* Stage 3 *)
  assert (ETANG : TANG (final_sol_eval pa) = Some th)
    by (apply vdiv_nz; exact HPD).
  exists ax, by_, (L_sub pa), bcy, rb, cdx, cx, dx, th,
    (- (sn * dy + cs * dx)), (cs * cy - sn * cx), (cs * by_ - sn * - ax),
    (- (sn * bcy + cs * bcx)).
  repeat split.
  - apply AX_eval_closed; assumption.
  - exact EBY.
  - exact EBCY.
  - apply RBXY_eval_closed; assumption.
  - exact ECDX.
  - exact ECX.
  - exact EDX.
  - exact ETANG.
  - change (EX (final_sol_eval pa)) with
      (option_map fst (reflect_entry (DX (final_sol_eval pa))
         (DY (final_sol_eval pa)) (TANG (final_sol_eval pa)))).
    rewrite EDX, EDY, ETANG; unfold reflect_entry; cbn [vbind].
    rewrite reflect_point_closed by nra; cbn [option_map fst].
    rewrite (Rabs_pos_eq dy) by lra; reflexivity.
  - change (FY (final_sol_eval pa)) with
      (option_map snd (reflect_entry (CX (final_sol_eval pa))
         (CY (final_sol_eval pa)) (TANG (final_sol_eval pa)))).
    rewrite ECX, ECY, ETANG; unfold reflect_entry; cbn [vbind].
    rewrite reflect_point_closed by nra; cbn [option_map snd].
    rewrite (Rabs_pos_eq cy) by lra; reflexivity.
  - change (GY (final_sol_eval pa)) with
      (option_map snd (reflect_entry (BX (final_sol_eval pa))
         (BY (final_sol_eval pa)) (TANG (final_sol_eval pa)))).
    rewrite EBX, EBY, ETANG; unfold reflect_entry; cbn [vbind].
    rewrite reflect_point_closed by nra; cbn [option_map snd].
    rewrite (Rabs_pos_eq by_) by lra; reflexivity.
  - change (FGX (final_sol_eval pa)) with
      (option_map fst (reflect_entry (BCX (final_sol_eval pa))
         (BCY (final_sol_eval pa)) (TANG (final_sol_eval pa)))).
    rewrite EBCX, EBCY, ETANG; unfold reflect_entry; cbn [vbind].
    rewrite reflect_point_closed by nra; cbn [option_map fst].
    rewrite (Rabs_pos_eq bcy) by lra; reflexivity.
  - apply near_intro; lra.
  - apply near_intro; lra.
  - apply near_intro; unfold L_sub; simpl; lra.
  - apply near_intro; lra.
  - apply near_intro; lra.
  - apply near_intro; lra.
  - apply near_intro; lra.
  - apply near_intro; lra.
  - apply near_intro; unfold th.
    replace (- P pa / PD pa) with (- (200000000000 / 636619772368))
      by (simpl; field).
    lra.
  - apply near_intro; lra.
  - apply near_intro; lra.
  - apply near_intro; lra.
  - apply near_intro; lra.
Qed.

(** * Further properties of the notebook code *)


(** * The equation systems and further properties of the pipeline *)

(** ** [equations_1] and [equations_2]

    The residuals of the notebook's equation lists, evaluated at numbers:
    [L] is the symbol that [res_1_sol] later replaces by [L_sub]. *)

Definition equations_1 (p : params)
    (L AX_ AY_ BX_ BY_ ABX_ ABY_ BCX_ BCY_ RBXY_ : R) : list value :=
  [ Some (AX_ + BX_);
    Some (AY_ - BY_);
    Some ABX_;
    Some (L - ABY_);
    (k <- vdiv (2 * b p) (PD p) ;; Some (RBXY_ * sin k + BCX_));
    (k <- vdiv (2 * b p) (PD p) ;; Some (RBXY_ * cos k - BCY_));
    (r <- vsqrt (BCX_^2 + BCY_^2) ;; Some (r - RBXY_));
    Some ((BX_ - ABX_)^2 + (BY_ - ABY_)^2 - RAB p^2);
    Some ((BX_ - BCX_)^2 + (BY_ - BCY_)^2 - RBC p^2);
    (u <- vdiv (BCY_ - ABY_) (BCX_ - ABX_) ;;
     v <- vdiv (ABY_ - BY_) (ABX_ - BX_) ;; Some (u - v)) ].

(** A candidate solves a list of equations when every residual is [0]. *)
Definition solves (l : list value) : Prop := Forall (fun v => v = Some 0) l.

Definition equations_2 (p : params) (BCX_ BCY_ CDX_ CDY_ : R) : list R :=
  [ (CDX_ - BCX_)^2 + (CDY_ - BCY_)^2 - (RBC p + RCD p)^2;
    CDX_^2 + CDY_^2 - (PD p / 2 - PLD p - RCD p)^2 ].

(** ** Helper lemmas *)

Lemma reflect_point_origin theta : reflect_point 0 0 theta = None.
Proof.
  unfold reflect_point; rewrite vsqrt_sum_sq; cbn [vbind].
  replace (0 ^ 2 + 0 ^ 2) with 0 by ring; rewrite sqrt_0, vdiv_zero; reflexivity.
Qed.

Lemma sum_sq_zero x y : x^2 + y^2 = 0 -> x = 0 /\ y = 0.
Proof. intro H; split; nra. Qed.

Lemma BC_norm_sq p :
  (- RBXY_r p * sin (two_beta p)) ^ 2 + (RBXY_r p * cos (two_beta p)) ^ 2
  = RBXY_r p ^ 2.
Proof.
  replace ((- RBXY_r p * sin (two_beta p)) ^ 2 + (RBXY_r p * cos (two_beta p)) ^ 2)
    with (RBXY_r p ^ 2 * (sin (two_beta p) ^ 2 + cos (two_beta p) ^ 2)) by ring.
  rewrite sin_cos_sq; ring.
Qed.

(** [RBXY = L cos(2b/PD) + sqrt Delta] and
    [Delta = (L cos(2b/PD))^2 - (L^2 - (RAB - RBC)^2)]. *)
Lemma RBXY_r_cos p : RBXY_r p = L_sub p * cos (two_beta p) + sqrt (Delta_spec p).
Proof. unfold RBXY_r; rewrite cos_two_beta; ring. Qed.

Lemma Delta_cos p :
  Delta_spec p = (L_sub p * cos (two_beta p)) ^ 2
                 - (L_sub p ^ 2 - (RAB p - RBC p) ^ 2).
Proof. unfold Delta_spec; rewrite cos_two_beta; cbv zeta; ring. Qed.

(** The radicand of Stage 2 in terms of the two radii. *)
Lemma CD_rad_factor p x y :
  CD_rad p x y =
  16 * ((rho p + (RBC p + RCD p)) ^ 2 - (x^2 + y^2))
     * ((x^2 + y^2) - (rho p - (RBC p + RCD p)) ^ 2).
Proof. unfold CD_rad, rho; field. Qed.

Lemma CD_rad_abs p x y :
  CD_rad p x y =
  16 * ((Rabs (rho p) + Rabs (RBC p + RCD p)) ^ 2 - (x^2 + y^2))
     * ((x^2 + y^2) - (Rabs (rho p) - Rabs (RBC p + RCD p)) ^ 2).
Proof.
  rewrite CD_rad_factor.
  set (r := rho p); set (s := RBC p + RCD p); set (d := x^2 + y^2).
  assert (Er : Rabs r ^ 2 = r ^ 2) by apply pow2_abs.
  assert (Es : Rabs s ^ 2 = s ^ 2) by apply pow2_abs.
  assert (Ers : (Rabs r * Rabs s) ^ 2 = (r * s) ^ 2)
    by (rewrite Rpow_mult_distr, Er, Es; ring).
  replace ((Rabs r + Rabs s) ^ 2) with (Rabs r ^ 2 + Rabs s ^ 2 + 2 * (Rabs r * Rabs s))
    by ring.
  replace ((Rabs r - Rabs s) ^ 2) with (Rabs r ^ 2 + Rabs s ^ 2 - 2 * (Rabs r * Rabs s))
    by ring.
  rewrite Er, Es.
  replace (16 * (r ^ 2 + s ^ 2 + 2 * (Rabs r * Rabs s) - d)
              * (d - (r ^ 2 + s ^ 2 - 2 * (Rabs r * Rabs s))))
    with (16 * ((r ^ 2 + s ^ 2 - d) ^ 2 * (-1) + 4 * (Rabs r * Rabs s) ^ 2))
    by ring.
  rewrite Ers; ring.
Qed.

Lemma Rabs_sub_le_add a c : (Rabs a - Rabs c) ^ 2 <= (Rabs a + Rabs c) ^ 2.
Proof. pose proof (Rabs_pos a); pose proof (Rabs_pos c); nra. Qed.

(** ** [equations_1] *)

(** The hand-picked Stage 1 solution solves [equations_1] exactly when
    [BCX <> 0] (otherwise the slope equation divides [0] by [0]) and
    [RBXY >= 0] (the equation [sqrt(BCX^2 + BCY^2) = RBXY]). *)
Theorem stage1_solves_equations_1 (p : params) :
  PD p <> 0 -> 0 <= Delta_spec p -> RAB p <> 0 -> RAB p ^ 2 - RBC p ^ 2 <> 0 ->
  let sol := final_sol_eval p in
  exists ax ay bx by_ abx aby bcx bcy r,
    AX sol = Some ax /\ AY sol = Some ay /\ BX sol = Some bx /\
    BY sol = Some by_ /\ ABX sol = Some abx /\ ABY sol = Some aby /\
    BCX sol = Some bcx /\ BCY sol = Some bcy /\ RBXY sol = Some r /\
    (solves (equations_1 p (L_sub p) ax ay bx by_ abx aby bcx bcy r)
     <-> bcx <> 0 /\ 0 <= r).
Proof.
  intros HPD HD HA Hden; cbv zeta.
  assert (Hdif : RAB p - RBC p <> 0)
    by (intro E; apply Hden; replace (RBC p) with (RAB p) by lra; ring).
  destruct (final_stage1 p) as (->&->&->&->&->&->&->&->&->).
  rewrite AX_eval_closed, AY_eval_closed, BX_eval_closed, BY_eval_closed,
    BCX_eval_closed, BCY_eval_closed, RBXY_eval_closed by assumption.
  unfold ABX_eval, ABY_eval.
  do 9 eexists; do 9 (split; [reflexivity|]).
  pose proof (BC_AB_sq p HD) as Hsq.
  pose proof (BC_norm_sq p) as Hn.
  assert (E5 : vdiv (2 * b p) (PD p) = Some (two_beta p))
    by (rewrite vdiv_nz by exact HPD; unfold two_beta; f_equal; unfold Rdiv; ring).
  unfold solves, equations_1; rewrite E5, vsqrt_nn by nra; cbn [vbind].
  rewrite Hn, sqrt_sq_abs.
  set (R := RBXY_r p) in *; set (sn := sin (two_beta p)) in *;
    set (cs := cos (two_beta p)) in *; set (L := L_sub p) in *.
  assert (E8 : (- (RAB p * R * sn / (RAB p - RBC p)) - 0) ^ 2 + (BY_r p - L) ^ 2
               - RAB p ^ 2 = 0).
  { replace ((- (RAB p * R * sn / (RAB p - RBC p)) - 0) ^ 2 + (BY_r p - L) ^ 2)
      with (RAB p ^ 2 * ((R * sn) ^ 2 + (R * cs - L) ^ 2) / (RAB p - RBC p) ^ 2)
      by (unfold BY_r; fold R cs L; field; exact Hdif).
    rewrite Hsq; field; exact Hdif. }
  assert (E9 : (- (RAB p * R * sn / (RAB p - RBC p)) - - R * sn) ^ 2
               + (BY_r p - R * cs) ^ 2 - RBC p ^ 2 = 0).
  { replace ((- (RAB p * R * sn / (RAB p - RBC p)) - - R * sn) ^ 2
             + (BY_r p - R * cs) ^ 2)
      with (RBC p ^ 2 * ((R * sn) ^ 2 + (R * cs - L) ^ 2) / (RAB p - RBC p) ^ 2)
      by (unfold BY_r; fold R cs L; field; exact Hdif).
    rewrite Hsq; field; exact Hdif. }
  rewrite E8, E9.
  replace (RAB p * R * sn / (RAB p - RBC p) + - (RAB p * R * sn / (RAB p - RBC p)))
    with 0 by ring.
  replace (BY_r p - BY_r p) with 0 by ring.
  replace (L - L) with 0 by ring.
  replace (R * sn + - R * sn) with 0 by ring.
  replace (R * cs - R * cs) with 0 by ring.
  rewrite !Forall_cons_iff.
  destruct (Req_dec_T (- R * sn) 0) as [Z|Z].
  - rewrite Rminus_0_r, Z, vdiv_zero; cbn [vbind].
    split; [intros (_&_&_&_&_&_&_&_&_&F&_); discriminate | intros [F _]; contradiction].
  - assert (Hbx : 0 - - (RAB p * R * sn / (RAB p - RBC p)) <> 0).
    { intro E; apply Z.
      assert (E' : RAB p * (R * sn) = 0).
      { replace (RAB p * (R * sn))
          with ((0 - - (RAB p * R * sn / (RAB p - RBC p))) * (RAB p - RBC p))
          by (field; exact Hdif).
        rewrite E; ring. }
      apply Rmult_integral in E'; destruct E' as [E'|E']; [contradiction | lra]. }
    rewrite Rminus_0_r, (vdiv_nz _ _ Z), (vdiv_nz _ _ Hbx); cbn [vbind].
    assert (E10 : (R * cs - L) / (- R * sn) - (L - BY_r p)
                  / (0 - - (RAB p * R * sn / (RAB p - RBC p))) = 0).
    { unfold BY_r; fold R cs L.
      assert (HR : R <> 0) by (intro E; apply Z; rewrite E; ring).
      assert (Hs : sn <> 0) by (intro E; apply Z; rewrite E; ring).
      field; repeat split; assumption. }
    rewrite E10.
    split.
    + intros (_&_&_&_&_&_&E7&_); split; [exact Z|].
      injection E7 as E7; assert (Rabs R = R) by lra.
      rewrite <- H; apply Rabs_pos.
    + intros [_ Hr]; rewrite Rabs_pos_eq by exact Hr; rewrite Rminus_diag.
      repeat split; constructor.
Qed.

(** The flank radius [RBXY] is negative exactly when [L cos(2b/PD) < 0]
    and [L^2 > (RAB - RBC)^2]: it is the larger root of
    [r^2 - 2 L cos(2b/PD) r + L^2 - (RAB - RBC)^2]. *)
Theorem RBXY_negative_iff (p : params) (r : R) :
  RBXY (final_sol_eval p) = Some r ->
  (r < 0 <-> L_sub p * cos (2 * b p / PD p) < 0 /\
             (RAB p - RBC p) ^ 2 < L_sub p ^ 2).
Proof.
  intro E; change (RBXY (final_sol_eval p)) with (RBXY_eval p) in E.
  destruct (stage1_entry_some p _ r E) as [HPD HD].
  rewrite RBXY_eval_closed in E by assumption; injection E as <-.
  rewrite RBXY_r_cos, <- double_div; fold (two_beta p).
  pose proof (Delta_cos p) as ED.
  pose proof (sqrt_pos (Delta_spec p)) as Hq0.
  pose proof (pow2_sqrt (Delta_spec p) HD) as Hq.
  set (q := sqrt (Delta_spec p)) in *.
  set (c := L_sub p * cos (two_beta p)) in *.
  split.
  - intro Hn; split; [lra|].
    assert (q ^ 2 < c ^ 2) by nra; lra.
  - intros [Hc HL]; assert (q ^ 2 < c ^ 2) by lra; nra.
Qed.

(** ** [equations_2] and the existence of [CD] *)

(** When the expressions of Stage 2 yield a real number. *)
Lemma CD_exprs_some_iff (p : params) (x y : R) :
  let d2 := x^2 + y^2 in
  let lo := (Rabs (rho p) - Rabs (RBC p + RCD p)) ^ 2 in
  let hi := (Rabs (rho p) + Rabs (RBC p + RCD p)) ^ 2 in
  ((exists v, CDY_expr p x y = Some v) <-> 0 < d2 /\ lo <= d2 <= hi) /\
  ((exists v, CDX_expr p x y = Some v) <-> x <> 0 /\ lo <= d2 <= hi).
Proof.
  cbv zeta.
  pose proof (CD_rad_abs p x y) as EQ.
  pose proof (Rabs_sub_le_add (rho p) (RBC p + RCD p)) as Hlh.
  set (lo := (Rabs (rho p) - Rabs (RBC p + RCD p)) ^ 2) in *.
  set (hi := (Rabs (rho p) + Rabs (RBC p + RCD p)) ^ 2) in *.
  assert (Hiff : 0 <= CD_rad p x y <-> lo <= x^2 + y^2 <= hi).
  { rewrite EQ; set (d := x^2 + y^2); split.
    - intro H; split.
      + destruct (Rle_dec lo d) as [|Hn]; [assumption|].
        assert (0 < hi - d) by lra; assert (d - lo < 0) by lra; nra.
      + destruct (Rle_dec d hi) as [|Hn]; [assumption|].
        assert (hi - d < 0) by lra; assert (0 < d - lo) by lra; nra.
    - intros [H1 H2]; assert (0 <= hi - d) by lra; assert (0 <= d - lo) by lra.
      nra. }
  split; split.
  - intros [v Ev]; destruct (CDY_expr_some p x y v Ev) as (HQ & Hd & _).
    split; [exact Hd | apply Hiff; exact HQ].
  - intros [Hd Hb]; exists (CDY_r p x y); apply CDY_expr_eval; [apply Hiff|]; assumption.
  - intros [v Ev]; destruct (CDX_expr_some p x y v Ev) as (HQ & Hx & _).
    split; [exact Hx | apply Hiff; exact HQ].
  - intros [Hx Hb]; exists (CDX_r p x y); apply CDX_expr_eval; [apply Hiff|]; assumption.
Qed.

(** For [BC] off both axes, Stage 2 yields a real [CDY], and a real [CDX],
    exactly when the circle of radius [|PD/2 - PLD - RCD|] around the
    origin meets the circle of radius [RBC + RCD] around [BC]; otherwise
    the square root of the negative radicand is taken and both are
    complex. *)
Theorem stage2_defined_iff (p : params) (x y : R) :
  x <> 0 -> y <> 0 ->
  let d2 := x^2 + y^2 in
  let lo := (Rabs (rho p) - Rabs (RBC p + RCD p)) ^ 2 in
  let hi := (Rabs (rho p) + Rabs (RBC p + RCD p)) ^ 2 in
  ((exists v, CDY_expr p x y = Some v) <-> lo <= d2 <= hi) /\
  ((exists v, CDX_expr p x y = Some v) <-> lo <= d2 <= hi).
Proof.
  intros Hx Hy; cbv zeta.
  destruct (CD_exprs_some_iff p x y) as [E1 E2]; cbv zeta in E1, E2.
  rewrite E1, E2.
  assert (0 < x ^ 2 + y ^ 2) by (pose proof (pow2_ge_0 y); nra).
  split; split; intros; tauto.
Qed.


(** Whatever [BC] it is given, a [CD] returned by Stage 2 solves
    [equations_2]; of the two intersections of the circles it is the one
    clockwise of [BC] seen from the origin: [BCX*CDY - BCY*CDX] is
    [-sqrt(radicand)/8 <= 0]. *)
Theorem stage2_solves_equations_2 (p : params) (x y cdx cdy : R) :
  CDX_expr p x y = Some cdx -> CDY_expr p x y = Some cdy ->
  equations_2 p x y cdx cdy = [0; 0] /\
  x * cdy - y * cdx = - sqrt (CD_rad p x y) / 8 /\ x * cdy - y * cdx <= 0.
Proof.
  intros Ex Ey.
  destruct (CDX_expr_some p x y cdx Ex) as (HQ & Hx & ->).
  destruct (CDY_expr_some p x y cdy Ey) as (_ & Hd & ->).
  assert (Hc : x * CDY_r p x y - y * CDX_r p x y = - sqrt (CD_rad p x y) / 8).
  { unfold CDX_r, CDY_r; field; lra. }
  pose proof (sqrt_pos (CD_rad p x y)).
  split; [|split; [exact Hc | lra]].
  unfold equations_2; rewrite CD_tangent, CD_on_circle by assumption.
  unfold rho, Rminus; rewrite !Rplus_opp_r; reflexivity.
Qed.

(** ** [reflect_point] *)

(** [reflect_point] only sees [y] through [y^2]: a point and its mirror
    image below the x-axis are sent to the same point. *)
Theorem reflect_point_sign_y (x y theta : R) :
  reflect_point x (- y) theta = reflect_point x y theta.
Proof.
  unfold reflect_point; replace ((- y) ^ 2) with (y ^ 2) by ring; reflexivity.
Qed.

(** For a point with [y >= 0] other than the origin, [reflect_point] is
    the mirror image [2 (v.u) u - v] across the line through the origin
    with direction [u = (-sin theta, cos theta)], i.e. at angle [theta]
    from the y-axis. *)
Theorem reflect_point_mirror (x y theta : R) :
  0 < x^2 + y^2 -> 0 <= y ->
  let ux := - sin theta in let uy := cos theta in
  reflect_point x y theta =
  Some (2 * (x * ux + y * uy) * ux - x, 2 * (x * ux + y * uy) * uy - y).
Proof.
  intros H Hy; cbv zeta.
  rewrite reflect_point_closed, Rabs_pos_eq by assumption.
  f_equal; f_equal;
    [rewrite sin_2a, cos_2a_sin; ring | rewrite sin_2a, cos_2a_cos; ring].
Qed.

(** [reflect_point] is undefined ([nan]) exactly at the origin. *)
Theorem reflect_point_none_iff (x y theta : R) :
  reflect_point x y theta = None <-> x = 0 /\ y = 0.
Proof.
  split.
  - intro E; destruct (Rlt_dec 0 (x^2 + y^2)) as [H|H].
    + rewrite reflect_point_closed in E by exact H; discriminate.
    + apply sum_sq_zero; nra.
  - intros [-> ->]; apply reflect_point_origin.
Qed.

(** ** Degenerate inputs *)

(** When [PD/2 = PLD + RCD] the circle of [CD] shrinks to the origin:
    a [CD] returned by Stage 2 is [(0, 0)] and [CDR = 0]. *)
Theorem CD_at_origin (p : params) (cdx cdy : R) :
  rho p = 0 ->
  CDX (final_sol_eval p) = Some cdx -> CDY (final_sol_eval p) = Some cdy ->
  cdx = 0 /\ cdy = 0 /\ CDR (final_sol_eval p) = Some 0.
Proof.
  intros Hr Ex Ey.
  assert (Hz : cdx = 0 /\ cdy = 0).
  { change (CDX (final_sol_eval p)) with
      (x <- BCX_eval p ;; y <- BCY_eval p ;; CDX_expr p x y) in Ex.
    change (CDY (final_sol_eval p)) with
      (x <- BCX_eval p ;; y <- BCY_eval p ;; CDY_expr p x y) in Ey.
    destruct (BCX_eval p) as [x|]; cbn [vbind] in Ex, Ey; [|discriminate].
    destruct (BCY_eval p) as [y|]; cbn [vbind] in Ex, Ey; [|discriminate].
    destruct (CDX_expr_some p x y cdx Ex) as (HQ & _ & ->).
    destruct (CDY_expr_some p x y cdy Ey) as (_ & Hd & ->).
    apply sum_sq_zero; rewrite CD_on_circle by assumption; rewrite Hr; ring. }
  destruct Hz as [-> ->]; split; [reflexivity|]; split; [reflexivity|].
  change (CDR (final_sol_eval p)) with
    (x <- CDX (final_sol_eval p) ;; y <- CDY (final_sol_eval p) ;; CDR_expr x y).
  rewrite Ex, Ey; cbn [vbind]; unfold CDR_expr; rewrite vsqrt_sum_sq.
  replace (0 ^ 2 + 0 ^ 2) with 0 by ring; rewrite sqrt_0; reflexivity.
Qed.

(** With [PD = 0] and [b <> 0] nothing is raised: [ABX = 0] and
    [ABY = RAB - PLD - h] are finite and every other entry is undefined
    ([b/PD] and [P/PD] divide by zero). *)
Theorem PD_zero_undefined (p : params) :
  PD p = 0 -> b p <> 0 ->
  let sol := final_sol_eval p in
  ABX sol = Some 0 /\ ABY sol = Some (RAB p - PLD p - h p) /\
  AX sol = None /\ AY sol = None /\ BX sol = None /\ BY sol = None /\
  BCX sol = None /\ BCY sol = None /\ RBXY sol = None /\
  CDX sol = None /\ CDY sol = None /\ CX sol = None /\ CY sol = None /\
  CDR sol = None /\ DX sol = None /\ DY sol = None /\ TANG sol = None /\
  EX sol = None /\ EY sol = None /\ FX sol = None /\ FY sol = None /\
  EFX sol = None /\ EFY sol = None /\ GX sol = None /\ GY sol = None /\
  FGX sol = None /\ FGY sol = None.
Proof.
  intros H _; cbv zeta.
  assert (Hb : vdiv (b p) (PD p) = None) by (rewrite H; apply vdiv_zero).
  assert (HT : TANG_final p = None) by (unfold TANG_final; rewrite H; apply vdiv_zero).
  split; [reflexivity|].
  split; [change (ABY (final_sol_eval p)) with (Some (L_sub p));
          unfold L_sub; rewrite H; f_equal; field|].
  unfold final_sol_eval, AX_eval, AY_eval, BX_eval, BY_eval, BCX_eval, BCY_eval,
    RBXY_eval, stage1_entry.
  rewrite Hb, HT; cbv zeta; cbn [vbind].
  repeat split.
Qed.

(** ** Witnesses *)

Lemma stage1_solves_equations_1_witness :
  PD p_flat <> 0 /\ 0 <= Delta_spec p_flat /\ RAB p_flat <> 0 /\
  RAB p_flat ^ 2 - RBC p_flat ^ 2 <> 0 /\
  exists ax ay bx by_ abx aby bcx bcy r,
    AX (final_sol_eval p_flat) = Some ax /\ AY (final_sol_eval p_flat) = Some ay /\
    BX (final_sol_eval p_flat) = Some bx /\ BY (final_sol_eval p_flat) = Some by_ /\
    ABX (final_sol_eval p_flat) = Some abx /\ ABY (final_sol_eval p_flat) = Some aby /\
    BCX (final_sol_eval p_flat) = Some bcx /\ BCY (final_sol_eval p_flat) = Some bcy /\
    RBXY (final_sol_eval p_flat) = Some r /\
    (solves (equations_1 p_flat (L_sub p_flat) ax ay bx by_ abx aby bcx bcy r)
     <-> bcx <> 0 /\ 0 <= r).
Proof.
  assert (HPD : PD p_flat <> 0) by (simpl; lra).
  assert (HA : RAB p_flat <> 0) by (simpl; lra).
  assert (Hden : RAB p_flat ^ 2 - RBC p_flat ^ 2 <> 0) by (simpl; lra).
  split; [exact HPD|]; split; [exact p_flat_Delta|]; split; [exact HA|];
    split; [exact Hden|].
  exact (stage1_solves_equations_1 p_flat HPD p_flat_Delta HA Hden).
Defined.

Lemma RBXY_negative_iff_witness :
  RBXY (final_sol_eval p_neg) = Some (-1) /\
  (-1 < 0 <-> L_sub p_neg * cos (2 * b p_neg / PD p_neg) < 0 /\
              (RAB p_neg - RBC p_neg) ^ 2 < L_sub p_neg ^ 2).
Proof.
  assert (E : RBXY (final_sol_eval p_neg) = Some (-1)).
  { change (RBXY (final_sol_eval p_neg)) with (RBXY_eval p_neg).
    rewrite RBXY_eval_closed, p_neg_RBXY; [reflexivity | simpl; lra |].
    rewrite p_neg_Delta; lra. }
  split; [exact E | exact (RBXY_negative_iff p_neg (-1) E)].
Defined.

Lemma stage2_solves_equations_2_witness :
  CDX_expr p_far (-3) 0 = Some (CDX_r p_far (-3) 0) /\
  CDY_expr p_far (-3) 0 = Some (CDY_r p_far (-3) 0) /\
  equations_2 p_far (-3) 0 (CDX_r p_far (-3) 0) (CDY_r p_far (-3) 0) = [0; 0] /\
  -3 * CDY_r p_far (-3) 0 - 0 * CDX_r p_far (-3) 0
    = - sqrt (CD_rad p_far (-3) 0) / 8 /\
  -3 * CDY_r p_far (-3) 0 - 0 * CDX_r p_far (-3) 0 <= 0.
Proof.
  assert (HQ : 0 <= CD_rad p_far (-3) 0) by (rewrite p_far_rad; lra).
  assert (Ex : CDX_expr p_far (-3) 0 = Some (CDX_r p_far (-3) 0))
    by (apply CDX_expr_eval; [exact HQ | lra]).
  assert (Ey : CDY_expr p_far (-3) 0 = Some (CDY_r p_far (-3) 0))
    by (apply CDY_expr_eval; [exact HQ | lra]).
  split; [exact Ex|]; split; [exact Ey|].
  exact (stage2_solves_equations_2 p_far (-3) 0 _ _ Ex Ey).
Defined.

Lemma stage2_defined_iff_witness :
  (1 : R) <> 0 /\ (1 : R) <> 0 /\
  ((exists v, CDY_expr p_far 1 1 = Some v) <->
   (Rabs (rho p_far) - Rabs (RBC p_far + RCD p_far)) ^ 2 <= 1 ^ 2 + 1 ^ 2 <=
   (Rabs (rho p_far) + Rabs (RBC p_far + RCD p_far)) ^ 2).
Proof.
  assert (H1 : (1 : R) <> 0) by lra.
  split; [exact H1|]; split; [exact H1|].
  exact (proj1 (stage2_defined_iff p_far 1 1 H1 H1)).
Defined.

Lemma reflect_point_mirror_witness :
  0 < 0^2 + 1^2 /\ 0 <= 1 /\
  reflect_point 0 1 0 =
  Some (2 * (0 * - sin 0 + 1 * cos 0) * - sin 0 - 0,
        2 * (0 * - sin 0 + 1 * cos 0) * cos 0 - 1).
Proof.
  assert (H : 0 < 0^2 + 1^2) by lra.
  split; [exact H|]; split; [lra|].
  exact (reflect_point_mirror 0 1 0 H ltac:(lra)).
Defined.

(** [PD/2 - PLD - RCD = 0]; [b/PD = pi/4], [L = 0], [BC = (-2, 0)], and
    [|BC| = RBC + RCD], so the two circles touch at the origin. *)
Definition p_deg : params := mk_params 3 1 1 PI 4 1 1 4 1.

Lemma p_deg_rho : rho p_deg = 0.
Proof. unfold rho; simpl; field. Qed.

Lemma p_deg_L : L_sub p_deg = 0.
Proof. unfold L_sub; simpl; field. Qed.

Lemma p_deg_Delta : Delta_spec p_deg = 4.
Proof. unfold Delta_spec; rewrite p_deg_L; simpl; ring. Qed.

Lemma p_deg_BC : BCX_eval p_deg = Some (-2) /\ BCY_eval p_deg = Some 0.
Proof.
  assert (HPD : PD p_deg <> 0) by (simpl; lra).
  assert (HD : 0 <= Delta_spec p_deg) by (rewrite p_deg_Delta; lra).
  assert (HR : RBXY_r p_deg = 2).
  { unfold RBXY_r; rewrite p_deg_Delta, p_deg_L.
    replace 4 with (2 ^ 2) by ring; rewrite sqrt_pow2 by lra; ring. }
  assert (Hb : two_beta p_deg = PI / 2) by (unfold two_beta; simpl; field).
  rewrite BCX_eval_closed, BCY_eval_closed by assumption.
  rewrite Hb, HR, sin_PI2, cos_PI2; split; f_equal; ring.
Qed.

Lemma p_deg_CD :
  CDX (final_sol_eval p_deg) = Some (CDX_r p_deg (-2) 0) /\
  CDY (final_sol_eval p_deg) = Some (CDY_r p_deg (-2) 0).
Proof.
  change (CDX (final_sol_eval p_deg)) with
    (x <- BCX_eval p_deg ;; y <- BCY_eval p_deg ;; CDX_expr p_deg x y).
  change (CDY (final_sol_eval p_deg)) with
    (x <- BCX_eval p_deg ;; y <- BCY_eval p_deg ;; CDY_expr p_deg x y).
  destruct p_deg_BC as [-> ->]; cbn [vbind].
  assert (HQ : 0 <= CD_rad p_deg (-2) 0).
  { rewrite CD_rad_factor, p_deg_rho; simpl; lra. }
  rewrite CDX_expr_eval, CDY_expr_eval by (auto; lra); split; reflexivity.
Qed.

Lemma CD_at_origin_witness :
  rho p_deg = 0 /\
  CDX (final_sol_eval p_deg) = Some (CDX_r p_deg (-2) 0) /\
  CDY (final_sol_eval p_deg) = Some (CDY_r p_deg (-2) 0) /\
  CDX_r p_deg (-2) 0 = 0 /\ CDR (final_sol_eval p_deg) = Some 0.
Proof.
  destruct p_deg_CD as [Ex Ey].
  destruct (CD_at_origin p_deg _ _ p_deg_rho Ex Ey) as (Hx & _ & Hr).
  split; [exact p_deg_rho|]; split; [exact Ex|]; split; [exact Ey|].
  split; [exact Hx | exact Hr].
Defined.

(** A parameter set with [PD = 0]. *)
Definition p_PD0 : params := mk_params 1 2 1 1 1 1 1 0 1.

Lemma PD_zero_undefined_witness :
  PD p_PD0 = 0 /\ b p_PD0 <> 0 /\ ABY (final_sol_eval p_PD0) = Some (RAB p_PD0 - PLD p_PD0 - h p_PD0) /\
  TANG (final_sol_eval p_PD0) = None.
Proof.
  assert (H : PD p_PD0 = 0) by reflexivity.
  assert (Hb : b p_PD0 <> 0) by (cbn; lra).
  destruct (PD_zero_undefined p_PD0 H Hb) as (_ & E & _ & _ & _ & _ & _ & _ & _ & _
    & _ & _ & _ & _ & _ & _ & ET & _).
  split; [exact H|]; split; [exact Hb|]; split; [exact E | exact ET].
Defined.


(** ** Scaling all lengths *)




Section Scaling.
Variable k : R.
Hypothesis Hk : 0 < k.






















End Scaling.









